(** * The booking session orchestrator of the SPOC booking front end

    A shallow embedding of [frontend/src/App.jsx] (the [App] component's
    state and its four handlers) and of the part of
    [frontend/src/services/api.js] the handlers go through (the response
    interceptor of [apiClient]), followed by the properties of the
    booking workflow.

    Reading guide:
    - [value]: the JavaScript values that cross the handlers (JSON payloads,
      thrown errors), with the few operators the source applies to them;
    - [Session]: the ten [useState] cells of [App];
    - [M]: the effects of a handler: writes to the cells, remote calls
      through [apiClient] (recorded in issue order), clock readings and
      thrown exceptions;
    - [handleClientSubmit], [handleSlotSelection], [handleBookingConfirm],
      [handleReset]: the handlers, line by line. *)

From stdpp Require Import gmap strings list fin_maps pretty.
From Stdlib Require Import Ascii.

Set Warnings "-register-all,-clear-no-such-hyp".
Local Open Scope Z_scope.
Local Open Scope string_scope.
Local Open Scope list_scope.

(** ** JavaScript values *)

Module Js.

(** Numbers are kept to the integers ([Z]); object identity is not
    represented, an object is the finite map of its own properties. *)
Inductive value : Type :=
| VUndefined
| VNull
| VBool (b : bool)
| VNum (n : Z)
| VStr (s : string)
| VArr (l : list value)
| VObj (o : gmap string value).

(** A completion: the normal result of an expression, or the value it
    threw. *)
Inductive completion (A : Type) : Type :=
| Normal (a : A)
| Throw (e : value).
Arguments Normal {A} a.
Arguments Throw {A} e.

(** [v == null]: the values on which a property access throws and on which
    [?.] short-circuits. *)
Definition nullish (v : value) : bool :=
  match v with
  | VUndefined | VNull => true
  | _ => false
  end.

(** ToBoolean, as used by [||]. *)
Definition truthy (v : value) : bool :=
  match v with
  | VUndefined | VNull => false
  | VBool b => b
  | VNum n => negb (Z.eqb n 0)
  | VStr s => negb (String.eqb s "")
  | VArr _ | VObj _ => true
  end.

(** [a || b] *)
Definition or_else (a b : value) : value := if truthy a then a else b.

(** The error object the runtime throws on [null.p], [undefined.p] and on
    a call of something that is not a function. It is an object without a
    [response] property, which is all the handlers look at. *)
Definition TypeError : value := VObj {[ "name" := VStr "TypeError" ]}.

(** [v[p]] on a value that is not nullish, for the property names the
    source reads ([data], [client_id], [solution_type], [spoc_id],
    [slot_id], [response], [detail], [available_slots]): none of them is an
    own or inherited property of an array, a string, a number or a
    boolean, so only objects can answer with something else than
    [undefined]. *)
Definition get (v : value) (p : string) : value :=
  match v with
  | VObj o => default VUndefined (o !! p)
  | _ => VUndefined
  end.

(** [v.p]: throws on [null] and [undefined]. *)
Definition member (v : value) (p : string) : completion value :=
  if nullish v then Throw TypeError else Normal (get v p).

(** [v?.p] *)
Definition opt_member (v : value) (p : string) : value :=
  if nullish v then VUndefined else get v p.

(** [a === b] for identifiers. Primitives compare by value. Two objects
    (or arrays) compare by reference; identity is not represented, and the
    identifiers of this API are JSON numbers or strings, so the comparison
    of two objects is taken to be [false]. *)
Definition strict_eq (a b : value) : bool :=
  match a, b with
  | VUndefined, VUndefined => true
  | VNull, VNull => true
  | VBool x, VBool y => Bool.eqb x y
  | VNum x, VNum y => Z.eqb x y
  | VStr x, VStr y => String.eqb x y
  | _, _ => false
  end.

(** The own enumerable properties copied by [{ ...v }]: those of an object,
    the indexed elements of an array, the indexed characters of a string,
    nothing for the other values. *)
Definition spread (v : value) : gmap string value :=
  match v with
  | VObj o => o
  | VArr l => list_to_map (imap (λ i x, (pretty i, x)) l)
  | VStr s =>
      list_to_map
        (imap (λ i c, (pretty i, VStr (String c EmptyString)))
           (String.list_ascii_of_string s))
  | _ => ∅
  end.

(** An object literal [{ k1: v1, ..., kn: vn }]; a later key overrides an
    earlier one. *)
Definition obj (fields : list (string * value)) : value :=
  VObj (list_to_map (reverse fields)).

(** [v.map(f)] is defined on arrays. On [null] and [undefined] the
    property access throws; on any other value of a JSON payload [v.map] is
    not a function and the call throws. *)
Definition as_array (v : value) : completion (list value) :=
  match v with
  | VArr l => Normal l
  | _ => Throw TypeError
  end.

(** [xs.find(pred)]: the first element on which [pred] answers [true],
    [undefined] when there is none; a throwing [pred] ends the search. *)
Fixpoint array_find (xs : list value) (pred : value → completion bool)
  : completion value :=
  match xs with
  | [] => Normal VUndefined
  | x :: rest =>
      match pred x with
      | Throw e => Throw e
      | Normal true => Normal x
      | Normal false => array_find rest pred
      end
  end.

End Js.
Export Js.

(** ** The session: the state cells of [App] (App.jsx, lines 9-18) *)

(** The three values the source gives to [step]: ['form'], ['spocs'] and
    ['success']. *)
Inductive Step : Type := StepForm | StepSpocs | StepSuccess.

Record Session : Type := mkSession {
  step : Step;
  clientData : value;
  clientId : value;
  spocs : list value;
  selectedSpoc : value;
  selectedSlot : value;
  showModal : bool;
  bookingResult : value;
  isLoading : bool;
  error : value
}.

(** The initial values passed to [useState]. *)
Definition initial : Session :=
  mkSession StepForm VNull VNull [] VNull VNull false VNull false VNull.

(** The state setters returned by [useState], as updates of the record. *)
Definition setStep (x : Step) (s : Session) : Session :=
  mkSession x (clientData s) (clientId s) (spocs s) (selectedSpoc s)
    (selectedSlot s) (showModal s) (bookingResult s) (isLoading s) (error s).
Definition setClientData (x : value) (s : Session) : Session :=
  mkSession (step s) x (clientId s) (spocs s) (selectedSpoc s)
    (selectedSlot s) (showModal s) (bookingResult s) (isLoading s) (error s).
Definition setClientId (x : value) (s : Session) : Session :=
  mkSession (step s) (clientData s) x (spocs s) (selectedSpoc s)
    (selectedSlot s) (showModal s) (bookingResult s) (isLoading s) (error s).
Definition setSpocs (x : list value) (s : Session) : Session :=
  mkSession (step s) (clientData s) (clientId s) x (selectedSpoc s)
    (selectedSlot s) (showModal s) (bookingResult s) (isLoading s) (error s).
Definition setSelectedSpoc (x : value) (s : Session) : Session :=
  mkSession (step s) (clientData s) (clientId s) (spocs s) x
    (selectedSlot s) (showModal s) (bookingResult s) (isLoading s) (error s).
Definition setSelectedSlot (x : value) (s : Session) : Session :=
  mkSession (step s) (clientData s) (clientId s) (spocs s) (selectedSpoc s)
    x (showModal s) (bookingResult s) (isLoading s) (error s).
Definition setShowModal (x : bool) (s : Session) : Session :=
  mkSession (step s) (clientData s) (clientId s) (spocs s) (selectedSpoc s)
    (selectedSlot s) x (bookingResult s) (isLoading s) (error s).
Definition setBookingResult (x : value) (s : Session) : Session :=
  mkSession (step s) (clientData s) (clientId s) (spocs s) (selectedSpoc s)
    (selectedSlot s) (showModal s) x (isLoading s) (error s).
Definition setIsLoading (x : bool) (s : Session) : Session :=
  mkSession (step s) (clientData s) (clientId s) (spocs s) (selectedSpoc s)
    (selectedSlot s) (showModal s) (bookingResult s) x (error s).
Definition setError (x : value) (s : Session) : Session :=
  mkSession (step s) (clientData s) (clientId s) (spocs s) (selectedSpoc s)
    (selectedSlot s) (showModal s) (bookingResult s) (isLoading s) x.

(** ** The remote service, seen from the handlers (api.js) *)

(** The four calls the handlers make through [apiClient]. The two dates of
    an availability request are kept as epoch milliseconds. *)
Inductive request : Type :=
| ClientCreate (clientData : value)
| SpocGetAll (params : value)
| SpocGetAvailability (spocId : value) (startDate endDate : Z)
| BookingCreate (bookingData : value).

(** How a request settles at the transport: fulfilled with a response
    object, or rejected with an error. *)
Inductive outcome : Type :=
| Resolved (response : value)
| Rejected (err : value).

(** Everything a handler does not control. [respond n r] is how the
    service settles request [r] when [n] requests were issued before it
    in the same run; [clock n] is the [n]-th reading of the clock;
    [pick] chooses, among the requests in flight together, which one
    settles next. *)
Record Env : Type := mkEnv {
  respond : nat → request → outcome;
  clock : nat → Z;
  pick : nat → nat
}.

(** The response interceptor of [apiClient] on a rejection:
    [if (error.response?.status === 401) {...}; return Promise.reject(error)].
    The access [error.response] throws when [error] is [null] or
    [undefined], and the promise is then rejected with that exception. The
    branch taken on status 401 touches the token store and the location of
    the page, not the session, and is left out. *)
Definition response_rejected (err : value) : value :=
  match member err "response" with
  | Throw e => e
  | Normal _ => err
  end.

(** ** The effects of a handler *)

(** The machine a handler runs on: the live state cells, the requests
    issued so far, each with the session as it was when the request left,
    and the number of clock readings taken. *)
Record machine : Type := mkMachine {
  live : Session;
  issued : list (request * Session);
  ticks : nat
}.

Definition M (A : Type) : Type := machine → completion A * machine.

#[global] Instance M_ret : MRet M := λ A a m, (Normal a, m).
#[global] Instance M_bind : MBind M := λ A B f c m,
  match c m with
  | (Normal a, m') => f a m'
  | (Throw e, m') => (Throw e, m')
  end.

(** [throw e] *)
Definition throw {A} (e : value) : M A := λ m, (Throw e, m).

(** An expression that may throw, inside a handler. *)
Definition lift {A} (c : completion A) : M A := λ m, (c, m).

(** A call of a state setter. *)
Definition set (f : Session → Session) : M unit :=
  λ m, (Normal tt, mkMachine (f (live m)) (issued m) (ticks m)).

(** [try { body } catch (err) { handler err }] *)
Definition try_catch {A} (body : M A) (handler : value → M A) : M A :=
  λ m, match body m with
       | (Normal a, m') => (Normal a, m')
       | (Throw e, m') => handler e m'
       end.

(** [try { body } finally { final }]: [final] runs on both exits, and the
    completion of [body] is kept unless [final] throws. *)
Definition try_finally {A} (body : M A) (final : M unit) : M A :=
  λ m, match body m with
       | (r, m') =>
           match final m' with
           | (Normal _, m'') => (r, m'')
           | (Throw e, m'') => (Throw e, m'')
           end
       end.

(** [Date.now()], and [new Date()] read as epoch milliseconds. *)
Definition Date_now (w : Env) : M Z :=
  λ m, (Normal (clock w (ticks m)),
        mkMachine (live m) (issued m) (S (ticks m))).

(** The error [toISOString] throws on an invalid date: like [TypeError],
    an object without a [response] property. *)
Definition RangeError : value := VObj {[ "name" := VStr "RangeError" ]}.

(** [new Date(t).toISOString()], the string kept as the epoch milliseconds
    it denotes. A time value further than 8.64e15 ms from the epoch makes
    the date invalid, and [toISOString] throws on an invalid date. *)
Definition toISOString (t : Z) : completion Z :=
  if Z.leb (Z.abs t) 8640000000000000 then Normal t else Throw RangeError.

(** [await apiClient.<verb>(...)]: the request is issued, and the handler
    resumes with the response, or with the rejection thrown at the
    [await]. The request interceptor only adds a header and is left
    out. *)
Definition await (w : Env) (r : request) : M value :=
  λ m, let m' := mkMachine (live m) (issued m ++ [(r, live m)]) (ticks m) in
       match respond w (length (issued m)) r with
       | Resolved response => (Normal response, m')
       | Rejected err => (Throw (response_rejected err), m')
       end.

(** ** [Promise.all] over the promises of [array.map(async ...)] *)

(** The completion of a computation, caught instead of propagated: the
    state of the promise an async function returns. *)
Definition attempt {A} (c : M A) : M (completion A) :=
  λ m, (Normal (c m).1, (c m).2).

(** [xs.map(async (x) => ...)] calls the async function on each element in
    turn; every call runs up to its [await], so the requests leave in the
    order of [xs]. What an async function of this program does after its
    [await] touches no state cell, issues no request and reads no clock:
    only its completion matters, and it is recorded with the promise. *)
Fixpoint start_all (ps : list (M value)) : M (list (completion value)) :=
  match ps with
  | [] => mret []
  | p :: rest =>
      r ← attempt p;
      rs ← start_all rest;
      mret (r :: rs)
  end.

(** The resolve-element steps of [Promise.all]: the promises settle one by
    one, in the order chosen by [pick] among those still pending; a
    fulfilment is stored at the index of its promise, a rejection rejects
    the whole. [t] counts the settlements so far, [fuel] bounds those left
    by the number of promises. *)
Fixpoint settle_all (pick : nat → nat) (t fuel : nat)
    (pending : list (nat * completion value)) (values : list value)
  : completion (list value) :=
  match fuel with
  | O => Normal values
  | S fuel' =>
      let j := (pick t `mod` length pending)%nat in
      match pending !! j with
      | None => Normal values
      | Some (i, Normal v) =>
          settle_all pick (S t) fuel' (delete j pending) (<[i:=v]> values)
      | Some (_, Throw e) => Throw e
      end
  end.

Definition Promise_all (pick : nat → nat) (ps : list (M value))
  : M (list value) :=
  rs ← start_all ps;
  lift (settle_all pick 0 (length rs) (imap pair rs)
          (replicate (length rs) VUndefined)).

(** ** The handlers of [App] *)

(** The async function mapped over the candidates (App.jsx, lines 33-44),
    in its three parts: the body of its [try] (lines 35-40), the object
    its [catch] returns (line 42), and the function itself. *)
Definition fetchAvailability (w : Env) (spoc : value) : M value :=
  spoc_id ← lift (member spoc "spoc_id");
  today ← Date_now w;
  startDate ← lift (toISOString today);
  now ← Date_now w;
  endDate ← lift (toISOString (now + 14 * 24 * 60 * 60 * 1000));
  availabilityResponse ←
    await w (SpocGetAvailability spoc_id startDate endDate);
  lift (member availabilityResponse "data").

Definition withoutSlots (spoc : value) : value :=
  VObj (<["available_slots" := VArr []]> (spread spoc)).

Definition spocWithAvailability (w : Env) (spoc : value) : M value :=
  try_catch (fetchAvailability w spoc) (λ _, mret (withoutSlots spoc)).

(** [err.response?.data?.detail || fallback], the message of both [catch]
    blocks once [err.response] has been read. *)
Definition detail_or (response : value) (fallback : string) : value :=
  or_else (opt_member (opt_member response "data") "detail") (VStr fallback).

(** App.jsx, lines 20-54. *)
Definition handleClientSubmit (w : Env) (formData : value) : M unit :=
  set (setIsLoading true);;
  set (setError VNull);;
  try_finally
    (try_catch
       (clientResponse ← await w (ClientCreate formData);
        data ← lift (member clientResponse "data");
        client_id ← lift (member data "client_id");
        set (setClientId client_id);;
        set (setClientData formData);;
        solution_type ← lift (member formData "solution_type");
        spocsResponse ←
          await w (SpocGetAll (obj [("solution_type", solution_type)]));
        data ← lift (member spocsResponse "data");
        candidates ← lift (as_array data);
        spocsWithAvailability ←
          Promise_all (pick w) (spocWithAvailability w <$> candidates);
        set (setSpocs spocsWithAvailability);;
        set (setStep StepSpocs))
       (λ err,
          response ← lift (member err "response");
          set (setError (detail_or response "Failed to process request."))))
    (set (setIsLoading false)).

(** App.jsx, lines 56-61. [s] is the session of the render that created
    the handler: the handler reads [spocs] from it. *)
Definition handleSlotSelection (s : Session) (spocId slot : value) : M unit :=
  spoc ← lift (array_find (spocs s)
                 (λ x, match member x "spoc_id" with
                       | Normal id => Normal (strict_eq id spocId)
                       | Throw e => Throw e
                       end));
  set (setSelectedSpoc spoc);;
  set (setSelectedSlot slot);;
  set (setShowModal true).

(** App.jsx, lines 63-82. [s] is the session of the render that created
    the handler: [clientId], [selectedSpoc] and [selectedSlot] are read
    from it. *)
Definition handleBookingConfirm (w : Env) (s : Session) (meetingType : value)
  : M unit :=
  set (setIsLoading true);;
  set (setError VNull);;
  try_finally
    (try_catch
       (spoc_id ← lift (member (selectedSpoc s) "spoc_id");
        slot_id ← lift (member (selectedSlot s) "slot_id");
        let bookingData :=
          obj [("client_id", clientId s); ("spoc_id", spoc_id);
               ("slot_id", slot_id); ("meeting_type", meetingType)] in
        response ← await w (BookingCreate bookingData);
        data ← lift (member response "data");
        set (setBookingResult data);;
        set (setShowModal false);;
        set (setStep StepSuccess))
       (λ err,
          response ← lift (member err "response");
          set (setError (detail_or response "Booking failed."))))
    (set (setIsLoading false)).

(** App.jsx, lines 84-93. *)
Definition handleReset : M unit :=
  set (setStep StepForm);;
  set (setClientData VNull);;
  set (setClientId VNull);;
  set (setSpocs []);;
  set (setSelectedSpoc VNull);;
  set (setSelectedSlot VNull);;
  set (setBookingResult VNull);;
  set (setError VNull).

(** ** Running the handlers *)

(** A handler starts on the session of the current render, with no request
    issued and no clock reading taken. The events of one session are taken
    one after the other, each handler running to its end before the next
    event: the form and the modal disable their submit buttons while
    [isLoading] is set. The events that arrive while a handler is
    suspended at an [await] are those of [advance], further down. *)
Definition boot (s : Session) : machine := mkMachine s [] 0.

Definition run (h : M unit) (s : Session) : completion unit * machine :=
  h (boot s).

(** The events of the interface that reach the session: the four handlers,
    the close button of the error banner ([setError(null)], line 106) and
    the [onClose] of the modal ([setShowModal(false)], line 175). *)
Inductive op : Type :=
| SubmitClient (w : Env) (formData : value)
| SelectSlot (spocId slot : value)
| ConfirmBooking (w : Env) (meetingType : value)
| Reset
| DismissError
| CloseModal.

Definition handler (o : op) (s : Session) : M unit :=
  match o with
  | SubmitClient w formData => handleClientSubmit w formData
  | SelectSlot spocId slot => handleSlotSelection s spocId slot
  | ConfirmBooking w meetingType => handleBookingConfirm w s meetingType
  | Reset => handleReset
  | DismissError => set (setError VNull)
  | CloseModal => set (setShowModal false)
  end.

(** The session after one event, and after a sequence of events. *)
Definition after (o : op) (s : Session) : Session :=
  live (run (handler o s) s).2.

Definition exec (ops : list op) (s : Session) : Session :=
  foldl (λ s o, after o s) s ops.

(** The two requests without which a submission cannot proceed: the
    creation of the client and the listing of the candidates. *)
Definition required (r : request) : bool :=
  match r with
  | ClientCreate _ | SpocGetAll _ => true
  | SpocGetAvailability _ _ _ | BookingCreate _ => false
  end.

(** The events that record a selection. *)
Definition is_select (o : op) : bool :=
  match o with
  | SelectSlot _ _ => true
  | _ => false
  end.

(** In the form step there is nothing to confirm: no candidate list and no
    selected SPOC. *)
Definition unselected_in_form (s : Session) : Prop :=
  step s = StepForm → spocs s = [] ∧ nullish (selectedSpoc s) = true.

(** The requests a run issued, in issue order. *)
Definition requests (r : completion unit * machine) : list request :=
  (issued r.2).*1.

(** ** Handlers that overlap *)

(** An async handler is suspended at each [await] until the awaited
    promise settles, and the page takes other events in the meantime:
    nothing disables the Back to Form button (line 116), the close button
    of the banner, the close button and the overlay of the modal or the
    slots of the cards while [isLoading] is set. When the handler resumes,
    its state setters act on the session as it is then; what it read from
    its closure is what the render that created it held. *)

(** An async handler at an [await]: the requests in flight, and the rest
    of the handler. The rest takes how the requests settle ([answer n r]
    for the [n]-th of them, [r]) and runs on the session of the time the
    handler resumes; it ends the handler (with [None], or with an
    exception that rejects the promise of the handler) or suspends it
    again. *)
Inductive frame : Type :=
  Awaiting (reqs : list request)
    (resume : (nat → request → outcome) → M (option frame)).

(** What an [await] yields once the request has settled, as in [await]. *)
Definition settled (out : outcome) : completion value :=
  match out with
  | Resolved response => Normal response
  | Rejected err => Throw (response_rejected err)
  end.

(** The [try]/[catch]/[finally] of the two async handlers, around the
    part of the [try] that runs between two suspensions. A part that
    suspends leaves the [try] open; one that completes or throws goes
    through the [catch] block and the [finally] block. *)
Definition guarded (fallback : string) (body : M (option frame))
  : M (option frame) :=
  λ m,
    match try_catch body
            (λ err,
               response ← lift (member err "response");
               set (setError (detail_or response fallback));;
               mret None) m with
    | (Normal (Some f), m') => (Normal (Some f), m')
    | (r, m') => try_finally (lift r) (set (setIsLoading false)) m'
    end.

(** [await apiClient.<verb>(...)] inside the [try]: the request is in
    flight, and [k] is the rest of the [try]. *)
Definition suspend (fallback : string) (r : request)
    (k : value → M (option frame)) : M (option frame) :=
  mret (Some (Awaiting [r]
                (λ answer,
                   guarded fallback
                     (response ← lift (settled (answer 0%nat r));
                      k response)))).

(** The availability calls of a submission (lines 32-45), on a service
    that settles their requests as [answer] says: the calls and
    [Promise.all] are those of [handleClientSubmit]. The mapped function
    touches no state cell, so the session of the machine plays no part. *)
Definition fanout (w : Env) (answer : nat → request → outcome)
    (candidates : list value) : completion (list value) * machine :=
  Promise_all (pick w)
    (spocWithAvailability (mkEnv answer (clock w) (pick w)) <$> candidates)
    (boot initial).

(** [await Promise.all(candidates.map(async ...))] inside the [try]: the
    mapped function runs up to its [await] on every candidate, so the
    availability requests are in flight together (they do not depend on
    how the service answers); the handler resumes once all have settled,
    with the array [Promise.all] fulfils with. *)
Definition suspend_all (fallback : string) (w : Env)
    (candidates : list value) (k : list value → M (option frame))
  : M (option frame) :=
  mret (Some (Awaiting (issued (fanout w (respond w) candidates).2).*1
                (λ answer,
                   guarded fallback
                     (spocsWithAvailability ←
                        lift (fanout w answer candidates).1;
                      k spocsWithAvailability)))).

(** [handleClientSubmit] (App.jsx, lines 20-54), suspension by
    suspension. Of [w], the handler uses the clock and the order in which
    [Promise.all] sees the availability calls settle. *)
Definition startClientSubmit (w : Env) (formData : value)
  : M (option frame) :=
  let fallback := "Failed to process request." in
  set (setIsLoading true);;
  set (setError VNull);;
  guarded fallback
    (suspend fallback (ClientCreate formData) (λ clientResponse,
       data ← lift (member clientResponse "data");
       client_id ← lift (member data "client_id");
       set (setClientId client_id);;
       set (setClientData formData);;
       solution_type ← lift (member formData "solution_type");
       suspend fallback (SpocGetAll (obj [("solution_type", solution_type)]))
         (λ spocsResponse,
            data ← lift (member spocsResponse "data");
            candidates ← lift (as_array data);
            suspend_all fallback w candidates (λ spocsWithAvailability,
              set (setSpocs spocsWithAvailability);;
              set (setStep StepSpocs);;
              mret None)))).

(** [handleBookingConfirm] (App.jsx, lines 63-82), suspension by
    suspension. [s] is the session of the render that created the
    handler. *)
Definition startBookingConfirm (s : Session) (meetingType : value)
  : M (option frame) :=
  let fallback := "Booking failed." in
  set (setIsLoading true);;
  set (setError VNull);;
  guarded fallback
    (spoc_id ← lift (member (selectedSpoc s) "spoc_id");
     slot_id ← lift (member (selectedSlot s) "slot_id");
     let bookingData :=
       obj [("client_id", clientId s); ("spoc_id", spoc_id);
            ("slot_id", slot_id); ("meeting_type", meetingType)] in
     suspend fallback (BookingCreate bookingData) (λ response,
       data ← lift (member response "data");
       set (setBookingResult data);;
       set (setShowModal false);;
       set (setStep StepSuccess);;
       mret None)).

(** The handler of an event, up to its first [await]; the handlers that
    are not async run to their end. *)
Definition start (o : op) (s : Session) : M (option frame) :=
  match o with
  | SubmitClient w formData => startClientSubmit w formData
  | ConfirmBooking _ meetingType => startBookingConfirm s meetingType
  | _ => handler o s;; mret None
  end.

(** The page: the session, and the handlers suspended at an [await]. *)
Record page : Type := mkPage {
  now : Session;
  suspended : list frame
}.

Definition loaded : page := mkPage initial [].

(** What happens to the page: an event of the interface, whose handler
    is the one of the current render and runs up to its first [await]; or
    the requests of the [i]-th suspended handler settle, and it resumes. *)
Inductive move : Type :=
| Fire (o : op)
| Settle (i : nat) (answer : nat → request → outcome).

Definition advance (mv : move) (p : page) : page :=
  match mv with
  | Fire o =>
      let r := start o (now p) (boot (now p)) in
      mkPage (live r.2)
        (suspended p ++ match r.1 with
                        | Normal (Some f) => [f]
                        | _ => []
                        end)
  | Settle i answer =>
      match suspended p !! i with
      | Some (Awaiting _ resume) =>
          let r := resume answer (boot (now p)) in
          mkPage (live r.2)
            (match r.1 with
             | Normal (Some f) => <[i:=f]> (suspended p)
             | _ => delete i (suspended p)
             end)
      | None => p
      end
  end.

Definition play (mvs : list move) (p : page) : page :=
  foldl (λ p mv, advance mv p) p mvs.

(** One event taken alone, as [after] takes it: the handler is resumed
    as soon as it is suspended, its requests settling as the service of
    the event says, until it ends. A handler goes through three
    suspensions at most; [respond w n] settles the [n]-th request of the
    whole run, and [j] requests were issued before the [j]-th
    suspension. *)
Definition service (o : op) : nat → request → outcome :=
  match o with
  | SubmitClient w _ | ConfirmBooking w _ => respond w
  | _ => λ _ _, Rejected VUndefined
  end.

Definition atomically (o : op) (p : page) : page :=
  let i := length (suspended p) in
  let answer j := λ n, service o (j + n)%nat in
  advance (Settle i (answer 2%nat))
    (advance (Settle i (answer 1%nat))
       (advance (Settle i (answer 0%nat)) (advance (Fire o) p))).

(** What a suspended handler of this program does to the session when
    it resumes. It never touches the selection. Either it leaves the step,
    the candidate list and the booking result alone; or it shows the
    candidates; or it is a confirmation whose one booking request was
    fulfilled, and it shows the booking, made of the data of the
    response. *)
Definition resumption (reqs : list request)
    (answer : nat → request → outcome) (s s' : Session) : Prop :=
  selectedSpoc s' = selectedSpoc s
  ∧ selectedSlot s' = selectedSlot s
  ∧ ((step s' = step s ∧ spocs s' = spocs s
      ∧ bookingResult s' = bookingResult s)
     ∨ step s' = StepSpocs
     ∨ (step s' = StepSuccess
        ∧ ∃ bookingData response,
            reqs = [BookingCreate bookingData]
            ∧ answer 0%nat (BookingCreate bookingData) = Resolved response
            ∧ bookingResult s' = get response "data")).

(** The suspended handlers that resume in that way, whatever the answers
    and whatever the session then is, and suspend again as such
    handlers. *)
Inductive tame : frame → Prop :=
| tame_Awaiting reqs resume :
    (∀ answer m, resumption reqs answer (live m) (live (resume answer m).2)) →
    (∀ answer m f, (resume answer m).1 = Normal (Some f) → tame f) →
    tame (Awaiting reqs resume).

(** A part of a handler that acts on the session as a resumption with
    requests [reqs] answered by [answer], and suspends as a tame
    handler. *)
Definition calm (reqs : list request) (answer : nat → request → outcome)
    (body : M (option frame)) : Prop :=
  ∀ m, resumption reqs answer (live m) (live (body m).2)
       ∧ ∀ f, (body m).1 = Normal (Some f) → tame f.

(** The pages on which nothing can be confirmed from the form step and
    every suspended handler is tame. *)
Definition sane (p : page) : Prop :=
  unselected_in_form (now p) ∧ Forall tame (suspended p).

(** ** The aggregation, entry by entry *)

(** The entry the mapped function produces for [spoc] when it is called on
    machine [m]: the data of the availability response, or the candidate
    without slots when anything in the [try] threw. *)
Definition entry (w : Env) (spoc : value) (m : machine) : value :=
  match (fetchAvailability w spoc m).1 with
  | Normal data => data
  | Throw _ => withoutSlots spoc
  end.

(** The machine once the mapped function has been called on each of [cs]. *)
Definition started (w : Env) (cs : list value) (m : machine) : machine :=
  foldl (λ m spoc, (fetchAvailability w spoc m).2) m cs.

Fixpoint entries (w : Env) (cs : list value) (m : machine) : list value :=
  match cs with
  | [] => []
  | spoc :: rest =>
      entry w spoc m :: entries w rest (fetchAvailability w spoc m).2
  end.

(** ** A concrete session: the scenario of the booking workflow *)

(** A submission for the solution type Automation, two candidates, the
    first with two open slots. *)
Definition acme : value :=
  obj [("company_name", VStr "Acme"); ("contact_email", VStr "a@b.com");
       ("solution_type", VStr "Automation");
       ("budget_range", VStr "$50K - $250K");
       ("decision_timeline", VStr "This Month")].

Definition spoc1 : value :=
  obj [("spoc_id", VNum 1); ("name", VStr "SPOC1")].
Definition spoc2 : value :=
  obj [("spoc_id", VNum 2); ("name", VStr "SPOC2")].
Definition slot1 : value :=
  obj [("slot_id", VNum 11); ("start_time", VStr "2030-01-07T09:00:00Z")].
Definition slot2 : value :=
  obj [("slot_id", VNum 12); ("start_time", VStr "2030-01-07T10:00:00Z")].
Definition spoc1_availability : value :=
  obj [("spoc_id", VNum 1); ("name", VStr "SPOC1");
       ("available_slots", VArr [slot1; slot2])].

(** A rejection that carries a response of the server with a detail. *)
Definition rejection (detail : string) : outcome :=
  Rejected
    (obj [("message", VStr "Request failed");
          ("response", obj [("data", obj [("detail", VStr detail)])])]).

(** The service of the scenario: the listing answers with the two
    candidates, the availability of the first one is served, that of the
    second one times out; the outcomes of the client creation and of the
    booking are left to the caller. The second availability response to
    arrive is taken first. *)
Definition scenario (creation booking : outcome) : Env :=
  mkEnv
    (λ _ r,
       match r with
       | ClientCreate _ => creation
       | SpocGetAll _ => Resolved (obj [("data", VArr [spoc1; spoc2])])
       | SpocGetAvailability (VNum 1) _ _ =>
           Resolved (obj [("data", spoc1_availability)])
       | SpocGetAvailability _ _ _ =>
           Rejected (obj [("message", VStr "timeout of 10000ms exceeded")])
       | BookingCreate _ => booking
       end)
    (λ n, 1893456000000 + Z.of_nat n)
    (λ _, 1%nat).


Definition created : outcome :=
  Resolved (obj [("data", obj [("client_id", VNum 7)])]).

Definition booked : outcome :=
  Resolved
    (obj [("data",
           obj [("booking_id", VNum 100); ("spoc_name", VStr "SPOC1");
                ("start_time", VStr "2030-01-07T09:00:00Z")])]).


(** The session of the scenario once the candidates are shown, and once
    the first slot of the first candidate is selected. *)
Definition reviewing : Session :=
  after (SubmitClient (scenario created booked) acme) initial.

Definition selected : Session := after (SelectSlot (VNum 1) slot1) reviewing.

(** The booking request the scenario sends for a technical demo. *)
Definition demo_booking : value :=
  obj [("client_id", VNum 7); ("spoc_id", VNum 1); ("slot_id", VNum 11);
       ("meeting_type", VStr "Technical Demo")].

(** * The components around the handlers *)

(** ** What [App] renders (App.jsx, lines 95-184) *)

(** The blocks the conditions of the JSX select. What a falsy condition
    itself leaves in the page (nothing, or the text of a zero) and how the
    selected blocks draw their children are not part of the view. *)
Inductive screen : Type :=
| ScreenForm (isLoading : bool)
| ScreenCards (spocs : list value)
| ScreenNoResults
| ScreenSuccess (bookingResult : value)
| ScreenNone.


(** Lines 103-108: [{error && (...)}]. *)
Definition render_banner (s : Session) : option value :=
  if truthy (error s) then Some (error s) else None.

(** Lines 110-169: the three sections, one per value of [step]; the
    success section also needs a truthy [bookingResult]. *)
Definition render_main (s : Session) : screen :=
  match step s with
  | StepForm => ScreenForm (isLoading s)
  | StepSpocs =>
      match spocs s with
      | [] => ScreenNoResults
      | _ :: _ => ScreenCards (spocs s)
      end
  | StepSuccess =>
      if truthy (bookingResult s) then ScreenSuccess (bookingResult s)
      else ScreenNone
  end.

(** Lines 172-181: [{showModal && selectedSpoc && selectedSlot && (...)}];
    the modal shows [selectedSpoc.name] and [selectedSlot.start_time]. *)
Definition render_modal (s : Session) : option (value * value) :=
  if showModal s && truthy (selectedSpoc s) && truthy (selectedSlot s)
  then Some (get (selectedSpoc s) "name", get (selectedSlot s) "start_time")
  else None.


(** The spoc id an availability request asks for. *)
Definition spocId_of (r : request) : option value :=
  match r with
  | SpocGetAvailability spocId _ _ => Some spocId
  | _ => None
  end.

(** The values [===] compares by content. *)
Definition primitive (v : value) : bool :=
  match v with
  | VArr _ | VObj _ => false
  | _ => true
  end.

(** ** What the page offers *)

(** The events the rendered page offers: the form with its button
    enabled; the slots of the cards; the Confirm button of the modal,
    enabled, and the close button and the overlay of the modal, whenever
    the modal is rendered; the close button of the banner; Back to Form
    and Try Different Options in the reviewing step and Schedule Another
    Demo on the success section, all three [handleReset]. *)
Definition offered (o : op) (s : Session) : Prop :=
  match o with
  | SubmitClient _ _ => render_main s = ScreenForm false
  | SelectSlot spocId slot =>
      ∃ spoc slots,
        render_main s = ScreenCards (spocs s)
        ∧ spoc ∈ spocs s
        ∧ get spoc "spoc_id" = spocId
        ∧ get spoc "available_slots" = VArr slots
        ∧ slot ∈ slots
  | ConfirmBooking _ _ => is_Some (render_modal s) ∧ isLoading s = false
  | Reset =>
      match render_main s with
      | ScreenCards _ | ScreenNoResults | ScreenSuccess _ => True
      | ScreenForm _ | ScreenNone => False
      end
  | DismissError => is_Some (render_banner s)
  | CloseModal => is_Some (render_modal s)
  end.

(** A run of the page in which every event is offered by the page when it
    happens, and every settlement is that of a suspended handler. *)
Fixpoint feasible (mvs : list move) (p : page) : Prop :=
  match mvs with
  | [] => True
  | mv :: rest =>
      match mv with
      | Fire o => offered o (now p)
      | Settle i _ => is_Some (suspended p !! i)
      end
      ∧ feasible rest (advance mv p)
  end.

(** The scenario, with a booking request still in flight when the user
    goes back to the form: the candidates are shown, the first slot of the
    first candidate is selected and confirmed, and before the service has
    answered the user closes the modal and presses Back to Form. *)
Definition back_during_booking : list move :=
  let w := scenario created booked in
  [Fire (SubmitClient w acme);
   Settle 0 (respond w); Settle 0 (respond w); Settle 0 (respond w);
   Fire (SelectSlot (VNum 1) slot1);
   Fire (ConfirmBooking w (VStr "Technical Demo"));
   Fire CloseModal;
   Fire Reset].

(** ** Strings: white space and [trim] *)

(** A string is the sequence of its code units, kept to those below 256
    (one [ascii] each). *)
Module Str.

(** The white space of [trim] and of [\s]: tab, line feed, vertical tab,
    form feed, carriage return, space, no-break space (the others lie
    above 255). *)
Definition is_space (c : Ascii.ascii) : bool :=
  let n := Ascii.nat_of_ascii c in
  (Nat.leb 9 n && Nat.leb n 13) || Nat.eqb n 32 || Nat.eqb n 160.

Fixpoint trimStart (s : list Ascii.ascii) : list Ascii.ascii :=
  match s with
  | [] => []
  | c :: rest => if is_space c then trimStart rest else s
  end.

(** [s.trim()] *)
Definition trim (s : string) : string :=
  String.string_of_list_ascii
    (reverse (trimStart (reverse (trimStart (String.list_ascii_of_string s))))).

End Str.

(** ** Regular expressions without captures *)

Module Regex.

Inductive regex : Type :=
| Never
| Eps
| Class (p : Ascii.ascii → bool)
| Cat (r1 r2 : regex)
| Alt (r1 r2 : regex)
| Star (r : regex).

(** [r+] *)
Definition Plus (r : regex) : regex := Cat r (Star r).

Fixpoint nullable (r : regex) : bool :=
  match r with
  | Never => false
  | Eps => true
  | Class _ => false
  | Cat r1 r2 => nullable r1 && nullable r2
  | Alt r1 r2 => nullable r1 || nullable r2
  | Star _ => true
  end.

(** What is left of [r] once the code unit [c] is read. *)
Fixpoint deriv (c : Ascii.ascii) (r : regex) : regex :=
  match r with
  | Never => Never
  | Eps => Never
  | Class p => if p c then Eps else Never
  | Cat r1 r2 =>
      if nullable r1 then Alt (Cat (deriv c r1) r2) (deriv c r2)
      else Cat (deriv c r1) r2
  | Alt r1 r2 => Alt (deriv c r1) (deriv c r2)
  | Star r1 => Cat (deriv c r1) (Star r1)
  end.

Fixpoint matches (r : regex) (s : list Ascii.ascii) : bool :=
  match s with
  | [] => nullable r
  | c :: rest => matches (deriv c r) rest
  end.

(** [/^r$/.test(s)]: the whole of [s] is in [r]. *)
Definition test (r : regex) (s : string) : bool :=
  matches r (String.list_ascii_of_string s).

(** The strings of a regular expression. *)
Inductive lang : regex → list Ascii.ascii → Prop :=
| lang_Eps : lang Eps []
| lang_Class p c : p c = true → lang (Class p) [c]
| lang_Cat r1 r2 s1 s2 : lang r1 s1 → lang r2 s2 → lang (Cat r1 r2) (s1 ++ s2)
| lang_Alt_l r1 r2 s : lang r1 s → lang (Alt r1 r2) s
| lang_Alt_r r1 r2 s : lang r2 s → lang (Alt r1 r2) s
| lang_Star_nil r : lang (Star r) []
| lang_Star_cons r s1 s2 :
    lang r s1 → lang (Star r) s2 → lang (Star r) (s1 ++ s2).

End Regex.

(** ** The form (components/BookingForm.jsx) *)

#[global] Instance completion_ret : MRet completion := λ A a, Normal a.
#[global] Instance completion_bind : MBind completion := λ A B f c,
  match c with
  | Normal a => f a
  | Throw e => Throw e
  end.

Module BookingForm.

(** The two state cells of the form: the values of the inputs, by name, and
    the messages under them ([null] once a message is cleared). *)
Record state : Type := mkState {
  formData : gmap string string;
  errors : gmap string value
}.

(** Lines 5-16. *)
Definition initial : state :=
  mkState
    (list_to_map
       [("company_name", ""); ("contact_name", ""); ("contact_email", "");
        ("contact_phone", ""); ("industry", ""); ("budget_range", "");
        ("decision_timeline", ""); ("solution_type", "")])
    ∅.

(** [formData[name]] *)
Definition field (formData : gmap string string) (name : string) : value :=
  match formData !! name with
  | Some v => VStr v
  | None => VUndefined
  end.

(** [formData[name].trim()]: throws when there is no such property. *)
Definition trimmed (formData : gmap string string) (name : string)
  : completion string :=
  match formData !! name with
  | Some v => Normal (Str.trim v)
  | None => Throw TypeError
  end.

(** [[^\s@]] *)
Definition notSpaceAt (c : Ascii.ascii) : bool :=
  negb (Str.is_space c) && negb (Ascii.eqb c "@"%char).

(** [/^[^\s@]+@[^\s@]+\.[^\s@]+$/] (line 54) *)
Definition emailPattern : Regex.regex :=
  Regex.Cat (Regex.Plus (Regex.Class notSpaceAt))
    (Regex.Cat (Regex.Class (Ascii.eqb "@"%char))
       (Regex.Cat (Regex.Plus (Regex.Class notSpaceAt))
          (Regex.Cat (Regex.Class (Ascii.eqb "."%char))
             (Regex.Plus (Regex.Class notSpaceAt))))).

(** Lines 40-46; [name] and [value] are those of the input that
    changed. *)
Definition handleChange (name value : string) (f : state) : state :=
  mkState (<[name := value]> (formData f))
    (if truthy (default VUndefined (errors f !! name))
     then <[name := VNull]> (errors f)
     else errors f).

(** Lines 48-64: the new messages, and whether there is none. *)
Definition validate (f : state) : completion (state * bool) :=
  let newErrors : gmap string value := ∅ in
  company_name ← trimmed (formData f) "company_name";
  let newErrors :=
    if negb (truthy (VStr company_name))
    then <["company_name" := VStr "Company name is required"]> newErrors
    else newErrors in
  contact_email ← trimmed (formData f) "contact_email";
  let newErrors :=
    if negb (truthy (VStr contact_email))
    then <["contact_email" := VStr "Email is required"]> newErrors
    else if negb (Regex.test emailPattern
                    (default "" (formData f !! "contact_email")))
    then <["contact_email" := VStr "Invalid email format"]> newErrors
    else newErrors in
  let newErrors :=
    if negb (truthy (field (formData f) "solution_type"))
    then <["solution_type" := VStr "Please select a solution type"]> newErrors
    else newErrors in
  let newErrors :=
    if negb (truthy (field (formData f) "budget_range"))
    then <["budget_range" := VStr "Please select a budget range"]> newErrors
    else newErrors in
  let newErrors :=
    if negb (truthy (field (formData f) "decision_timeline"))
    then <["decision_timeline" := VStr "Please select a timeline"]> newErrors
    else newErrors in
  mret (mkState (formData f) newErrors, Nat.eqb (size newErrors) 0).

(** Lines 66-71: the form data handed to [onSubmit], if any. The handler
    of [App] it is given runs on its own; what it throws does not come
    back here. *)
Definition handleSubmit (f : state) : completion (state * option value) :=
  validate f ≫= λ checked : state * bool,
    mret (checked.1,
          if checked.2 then Some (VObj (VStr <$> formData f)) else None).

(** The events of the form: an input changes ([onChange]), the form is
    submitted ([onSubmit]); and the form after one event, and after a
    sequence of events. An exception leaves the state cells as they
    are. *)
Inductive event : Type :=
| Change (name value : string)
| Submit.

Definition react (e : event) (f : state) : state :=
  match e with
  | Change name value => handleChange name value f
  | Submit =>
      match handleSubmit f with
      | Normal (next, _) => next
      | Throw _ => f
      end
  end.

Definition reacts (es : list event) (f : state) : state :=
  foldl (λ f e, react e f) f es.

End BookingForm.

(** The form of the scenario, filled in input by input. *)
Definition acme_form : BookingForm.state :=
  BookingForm.reacts
    [BookingForm.Change "company_name" "Acme";
     BookingForm.Change "contact_email" "a@b.com";
     BookingForm.Change "solution_type" "Automation";
     BookingForm.Change "budget_range" "$50K - $250K";
     BookingForm.Change "decision_timeline" "This Month"]
    BookingForm.initial.

(** ** A candidate's card (components/SpocCard.jsx) *)

Module SpocCard.

(** Lines 15-18, on the card of [spoc], with [onSelectSlot] the
    [handleSlotSelection] of the session [s]. The result is the slot id
    the card highlights. *)
Definition handleSlotClick (s : Session) (spoc slot : value) : M value :=
  slot_id ← lift (member slot "slot_id");
  spoc_id ← lift (member spoc "spoc_id");
  handleSlotSelection s spoc_id slot;;
  mret slot_id.

End SpocCard.

(** ** The interceptors of [apiClient] (services/api.js) *)

Module Api.

(** What the interceptors touch of the browser: the local storage, and
    the address last assigned to [window.location.href]. *)
Record browser : Type := mkBrowser {
  localStorage : gmap string string;
  location_href : option string
}.

(** A request on its way out: the call, and its headers. *)
Record config : Type := mkConfig {
  call : request;
  headers : gmap string value
}.

(** [localStorage.getItem(key)] *)
Definition getItem (b : browser) (key : string) : value :=
  match localStorage b !! key with
  | Some v => VStr v
  | None => VNull
  end.

(** The request interceptor. *)
Definition request_interceptor (b : browser) (c : config) : config :=
  match localStorage b !! "access_token" with
  | Some token =>
      if truthy (VStr token)
      then mkConfig (call c)
             (<["Authorization" := VStr ("Bearer " ++ token)%string]>
                (headers c))
      else c
  | None => c
  end.

(** The response interceptor on a rejection, with the branch on status
    401: the browser afterwards, and the error the promise is rejected
    with. *)
Definition response_interceptor_rejected (b : browser) (error : value)
  : browser * value :=
  match member error "response" with
  | Throw e => (b, e)
  | Normal response =>
      if strict_eq (opt_member response "status") (VNum 401)
      then (mkBrowser (delete "access_token" (localStorage b))
              (Some "/login"), error)
      else (b, error)
  end.

End Api.

(** * Properties *)

(** ** The effects, step by step *)

Section settle.
Context (pick : nat → nat).

(** Whatever the settlement order, promises that all fulfil leave their
    values at their own indices. [target] is the list of those values;
    the invariant says that the indices still pending are distinct, that
    each pending promise fulfils with the value [target] has at its
    index, and that [values] agrees with [target] everywhere else. *)
Lemma settle_all_fulfilled (target : list value) :
  ∀ fuel t (pending : list (nat * completion value)) (values : list value),
    length pending = fuel →
    length values = length target →
    NoDup pending.*1 →
    (∀ i c, (i, c) ∈ pending → ∃ v, c = Normal v ∧ target !! i = Some v) →
    (∀ i, i ∉ pending.*1 → values !! i = target !! i) →
    settle_all pick t fuel pending values = Normal target.
Proof.
  induction fuel as [|fuel IH];
    intros t pending values Hlen Hvals Hnd Hin Hout.
  - apply nil_length_inv in Hlen. subst pending. simpl.
    f_equal. apply list_eq. intros i. apply Hout. apply not_elem_of_nil.
  - simpl.
    assert (Hj : (pick t `mod` length pending < length pending)%nat).
    { apply Nat.mod_upper_bound. lia. }
    destruct (lookup_lt_is_Some_2 _ _ Hj) as [[i c] Hic].
    rewrite Hic.
    pose proof (delete_Permutation _ _ _ Hic) as Hperm.
    destruct (Hin i c) as (v & -> & Hv).
    { eapply list_elem_of_lookup_2; eauto. }
    rewrite Hperm, fmap_cons in Hnd. apply NoDup_cons in Hnd as [Hi Hnd].
    apply IH.
    + rewrite length_delete; [lia | eauto].
    + by rewrite length_insert.
    + done.
    + intros i' c' Hel. apply Hin. rewrite Hperm. by right.
    + intros i' Hni. destruct (decide (i = i')) as [<-|Hne].
      * rewrite list_lookup_insert_eq; [done|].
        rewrite Hvals. by eapply lookup_lt_Some.
      * rewrite list_lookup_insert_ne; [|done]. apply Hout.
        rewrite Hperm, fmap_cons. apply not_elem_of_cons. auto.
Qed.

(** The same, from the start of [Promise.all]: every promise pending and
    every slot of the result still empty. *)
Lemma settle_all_from_start (vs : list value) :
  settle_all pick 0 (length vs) (imap pair (Normal <$> vs))
    (replicate (length vs) VUndefined) = Normal vs.
Proof.
  assert (Hfst : (imap pair (Normal <$> vs)).*1 = seq 0 (length vs)).
  { rewrite fmap_imap.
    rewrite (imap_ext _ (λ j _, id j)); [|done].
    by rewrite imap_seq_0, list_fmap_id, length_fmap. }
  apply settle_all_fulfilled.
  - by rewrite length_imap, length_fmap.
  - by rewrite length_replicate.
  - rewrite Hfst. apply NoDup_seq.
  - intros i c (j & y & [= -> ->] & Hy)%elem_of_lookup_imap.
    rewrite list_lookup_fmap in Hy.
    destruct (vs !! j) as [v|] eqn:Hv; simplify_eq/=. eauto.
  - intros i Hi. rewrite Hfst, elem_of_seq in Hi.
    transitivity (@None value).
    + apply lookup_replicate_None. lia.
    + symmetry. apply lookup_ge_None. lia.
Qed.
End settle.

(** ** The aggregation (App.jsx, lines 32-45) *)

Lemma spocWithAvailability_run w spoc m :
  spocWithAvailability w spoc m
  = (Normal (entry w spoc m), (fetchAvailability w spoc m).2).
Proof.
  unfold spocWithAvailability, try_catch, entry.
  by destruct (fetchAvailability w spoc m) as [[data|e] m'].
Qed.

Lemma start_all_run w cs m :
  start_all (spocWithAvailability w <$> cs) m
  = (Normal (Normal <$> entries w cs m), started w cs m).
Proof.
  revert m. induction cs as [|spoc cs IH]; intros m; [done|].
  cbn [fmap list_fmap start_all entries started foldl].
  unfold mbind, M_bind, attempt at 1.
  rewrite spocWithAvailability_run. cbn [fst snd].
  fold (spocWithAvailability w <$> cs). by rewrite IH.
Qed.

Lemma length_entries w cs m : length (entries w cs m) = length cs.
Proof. revert m. induction cs; intros m; simpl; auto. Qed.

Lemma lookup_entries w cs m i spoc :
  cs !! i = Some spoc →
  entries w cs m !! i = Some (entry w spoc (started w (take i cs) m)).
Proof.
  revert m i. induction cs as [|c cs IH]; intros m [|i] Hi; simplify_eq/=.
  - done.
  - by apply IH.
Qed.

Lemma Promise_all_run w cs m :
  Promise_all (pick w) (spocWithAvailability w <$> cs) m
  = (Normal (entries w cs m), started w cs m).
Proof.
  unfold Promise_all, mbind, M_bind. rewrite start_all_run.
  unfold lift. rewrite length_fmap.
  by rewrite settle_all_from_start.
Qed.

(** The candidate without slots has an empty slot sequence, and keeps the
    other properties of the candidate. *)
Lemma withoutSlots_available_slots spoc :
  get (withoutSlots spoc) "available_slots" = VArr [].
Proof. unfold withoutSlots, get. by rewrite lookup_insert_eq. Qed.

Lemma withoutSlots_other spoc p :
  p ≠ "available_slots" →
  get (withoutSlots spoc) p = default VUndefined (spread spoc !! p).
Proof. intros Hp. unfold withoutSlots, get. by rewrite lookup_insert_ne. Qed.

(** C1. The aggregation over a candidate list [cs] fulfils, whatever the
    order [pick w] in which the availability requests settle, with a list
    of the length of [cs]; its [i]-th entry comes from the [i]-th
    candidate. When the fetch of that candidate succeeded, the entry is
    the data of the availability response. When the fetch failed, the
    entry is still that candidate: its [available_slots] is the empty
    array, and every other property is the candidate's own (for a
    candidate that is an object, [spread] is the object itself). The
    statement is per candidate, so it covers any number of failed
    fetches. *)
Theorem aggregation_keeps_every_candidate (w : Env) (cs : list value)
    (m : machine) :
  ∃ result : list value,
    Promise_all (pick w) (spocWithAvailability w <$> cs) m
    = (Normal result, started w cs m)
    ∧ length result = length cs
    ∧ ∀ i spoc, cs !! i = Some spoc →
        match (fetchAvailability w spoc (started w (take i cs) m)).1 with
        | Normal data => result !! i = Some data
        | Throw _ =>
            ∃ entry,
              result !! i = Some entry
              ∧ get entry "available_slots" = VArr []
              ∧ ∀ p, p ≠ "available_slots" →
                     get entry p = default VUndefined (spread spoc !! p)
        end.
Proof.
  exists (entries w cs m). split; [apply Promise_all_run|].
  split; [apply length_entries|].
  intros i spoc Hi. rewrite (lookup_entries _ _ _ _ _ Hi). unfold entry.
  destruct (fetchAvailability w spoc (started w (take i cs) m)).1; [done|].
  exists (withoutSlots spoc). split; [done|].
  split; [apply withoutSlots_available_slots|].
  intros p Hp. by apply withoutSlots_other.
Qed.

(** ** Facts on values and on the effects *)

Lemma member_Normal v p x :
  member v p = Normal x → nullish v = false ∧ x = get v p.
Proof. unfold member. destruct (nullish v); naive_solver. Qed.

Lemma member_Throw v p e :
  member v p = Throw e → nullish v = true ∧ e = TypeError.
Proof. unfold member. destruct (nullish v); naive_solver. Qed.

Lemma as_array_Normal v l : as_array v = Normal l → v = VArr l.
Proof. destruct v; naive_solver. Qed.

Lemma as_array_Throw v e : as_array v = Throw e → e = TypeError.
Proof. destruct v; naive_solver. Qed.

(** What reaches a [catch] block is never [null] or [undefined]: the
    runtime throws error objects, and the interceptor turns a nullish
    rejection into one. *)
Lemma member_TypeError p : p ≠ "name" → member TypeError p = Normal VUndefined.
Proof.
  intros Hp. unfold member, TypeError, get, nullish.
  by rewrite lookup_singleton_ne.
Qed.

Lemma nullish_response_rejected err : nullish (response_rejected err) = false.
Proof. unfold response_rejected, member. by destruct (nullish err) eqn:E. Qed.

Lemma member_response_rejected err p :
  member (response_rejected err) p = Normal (get (response_rejected err) p).
Proof. unfold member. by rewrite nullish_response_rejected. Qed.

Lemma response_rejected_id err : nullish err = false → response_rejected err = err.
Proof. intros H. unfold response_rejected, member. by rewrite H. Qed.

(** The message of a [catch] block is never falsy: it is the detail when
    the detail is truthy, the fallback otherwise. *)
Lemma detail_or_truthy response fallback :
  fallback ≠ "" → truthy (detail_or response fallback) = true.
Proof.
  intros Hf. unfold detail_or, or_else.
  destruct (truthy (opt_member _ _)) eqn:Ht; [done|]. simpl.
  by destruct (String.eqb_spec fallback "").
Qed.

Lemma detail_or_undefined fallback : detail_or VUndefined fallback = VStr fallback.
Proof. done. Qed.

Lemma strict_eq_eq a b : strict_eq a b = true → a = b.
Proof.
  destruct a, b; simpl; try done.
  - intros ?%Bool.eqb_prop. by subst.
  - intros ?%Z.eqb_eq. by subst.
  - intros ?%String.eqb_eq. by subst.
Qed.

Lemma array_find_Normal xs pred x :
  array_find xs pred = Normal x →
  (x = VUndefined ∧ Forall (λ y, pred y = Normal false) xs)
  ∨ (x ∈ xs ∧ pred x = Normal true).
Proof.
  induction xs as [|y xs IH]; simpl.
  - intros [= <-]. by left.
  - destruct (pred y) as [[|]|e] eqn:Hy; [| |done].
    + intros [= <-]. right. split; [by left|done].
    + intros [[-> Hall]|[Hin Hx]]%IH.
      * left. split; [done|]. by constructor.
      * right. split; [by right|done].
Qed.

(** Symbolic execution of a handler: the monad is unfolded, the handler
    itself stays to be unfolded by the caller. *)
Ltac mrun :=
  cbv [run boot handler after requests mbind M_bind mret M_ret set throw lift
       try_catch try_finally await Date_now];
  cbn [live issued ticks fst snd length app].

(** One branching point of a handler: a response of the service, a
    property access, the receiver of [map]. A thrown value is identified
    as soon as it appears, so that the [catch] block can run. *)
Ltac mbranch :=
  match goal with
  | |- context [match respond ?w ?n ?r with _ => _ end] =>
      let H := fresh "Hrespond" in
      destruct (respond w n r) as [?response|?err] eqn:H
  | |- context [match member ?v ?p with _ => _ end] =>
      let H := fresh "Hmember" in
      destruct (member v p) as [?x|?e] eqn:H;
      [apply member_Normal in H as [H ->]
      |apply member_Throw in H as [H ->]]
  | |- context [match as_array ?v with _ => _ end] =>
      let H := fresh "Harray" in
      destruct (as_array v) as [?cs|?e] eqn:H;
      [apply as_array_Normal in H
      |apply as_array_Throw in H as ->]
  end.

Ltac mcatch :=
  rewrite ?member_response_rejected, ?(member_TypeError "response") by done;
  rewrite ?detail_or_undefined, ?Promise_all_run.

Ltac mpaths := mrun; repeat (mcatch; mrun; try mbranch).

(** The availability fetches write no state cell; the requests they issue
    are availability requests, sent from the session as it was when the
    aggregation started. *)
Lemma fetchAvailability_machine w spoc m :
  live (fetchAvailability w spoc m).2 = live m
  ∧ ∃ l, issued (fetchAvailability w spoc m).2 = issued m ++ l
         ∧ Forall (λ p, required p.1 = false ∧ p.2 = live m) l.
Proof.
  unfold fetchAvailability. mrun.
  destruct (member spoc "spoc_id") as [spoc_id|e]; cbn [snd live issued];
    [destruct (toISOString (clock w (ticks m))) as [startDate|e];
     cbn [snd live issued];
     [destruct (toISOString _) as [endDate|e]; cbn [snd live issued];
      [destruct (respond w _ _); cbn [snd live issued]|]|]|].
  1,2: split; [done|]; eexists; (split; [done|]); by repeat constructor.
  all: split; [done|]; exists [];
    (split; [symmetry; apply app_nil_r | constructor]).
Qed.

Lemma started_machine w cs m :
  live (started w cs m) = live m
  ∧ ∃ l, issued (started w cs m) = issued m ++ l
         ∧ Forall (λ p, required p.1 = false ∧ p.2 = live m) l.
Proof.
  revert m. induction cs as [|spoc cs IH]; intros m; simpl.
  - split; [done|]. exists []. by rewrite app_nil_r.
  - destruct (fetchAvailability_machine w spoc m) as (Hl & l1 & Hi & Hall).
    destruct (IH (fetchAvailability w spoc m).2) as (Hl' & l2 & Hi' & Hall').
    fold (started w cs (fetchAvailability w spoc m).2).
    split; [congruence|]. exists (l1 ++ l2). split.
    + rewrite Hi', Hi. by rewrite app_assoc.
    + apply Forall_app. split; [done|]. by rewrite <-Hl.
Qed.

(** When a fetch fails: the candidate is [null] or [undefined], a date of
    the window is out of range, the availability request is rejected, or
    its response is [null] or [undefined]. *)
Lemma fetchAvailability_result w spoc m :
  (fetchAvailability w spoc m).1
  = match member spoc "spoc_id" with
    | Throw e => Throw e
    | Normal spoc_id =>
        match toISOString (clock w (ticks m)) with
        | Throw e => Throw e
        | Normal startDate =>
            match toISOString (clock w (S (ticks m))
                               + 14 * 24 * 60 * 60 * 1000) with
            | Throw e => Throw e
            | Normal endDate =>
                match respond w (length (issued m))
                        (SpocGetAvailability spoc_id startDate endDate) with
                | Resolved availabilityResponse =>
                    member availabilityResponse "data"
                | Rejected err => Throw (response_rejected err)
                end
            end
        end
    end.
Proof.
  unfold fetchAvailability. mrun.
  destruct (member spoc "spoc_id") as [spoc_id|e]; [|done].
  destruct (toISOString (clock w (ticks m))) as [startDate|e]; [|done].
  destruct (toISOString _) as [endDate|e]; [|done].
  by destruct (respond w _ _).
Qed.

(** ** Submitting a client (App.jsx, lines 20-54) *)

(** The handler always completes: whatever is thrown in its [try] is
    caught, and its [catch] block does not throw. *)
Lemma handleClientSubmit_completes w formData m :
  (handleClientSubmit w formData m).1 = Normal tt.
Proof. destruct m. unfold handleClientSubmit. mpaths; done. Qed.

(** The two outcomes of a submission: the candidates are shown and no
    error is reported, or an error is reported and the step and the
    candidate list stay as they were. *)
Lemma handleClientSubmit_outcome w formData s :
  let s' := after (SubmitClient w formData) s in
  (step s' = StepSpocs ∧ error s' = VNull)
  ∨ (step s' = step s ∧ spocs s' = spocs s ∧ truthy (error s') = true).
Proof.
  unfold after, handler, handleClientSubmit. mpaths.
  all: rewrite ?(proj1 (started_machine _ _ _)); cbn.
  all: try (by left).
  all: right; repeat split; try done; by apply detail_or_truthy.
Qed.

(** C2. When the client creation fulfils with a response that carries
    data, and the listing for the solution type of the submission fulfils
    with an array of candidates, the session is in the reviewing step
    (['spocs']) after [handleClientSubmit], from the form step as from any
    other; it holds the one client id of the creation response, the
    submission, one entry per candidate, and no error. *)
Theorem submitClient_success (w : Env) (formData : value) (s : Session)
    (clientResponse data solution_type spocsResponse : value)
    (cs : list value) :
  respond w 0 (ClientCreate formData) = Resolved clientResponse →
  member clientResponse "data" = Normal data →
  nullish data = false →
  member formData "solution_type" = Normal solution_type →
  respond w 1 (SpocGetAll (obj [("solution_type", solution_type)]))
  = Resolved spocsResponse →
  member spocsResponse "data" = Normal (VArr cs) →
  let s' := after (SubmitClient w formData) s in
  step s' = StepSpocs
  ∧ clientId s' = get data "client_id"
  ∧ clientData s' = formData
  ∧ length (spocs s') = length cs
  ∧ error s' = VNull
  ∧ isLoading s' = false.
Proof.
  intros Hcreate Hdata Hnull Hst Hlist Hcs s'. subst s'.
  unfold after, handler, handleClientSubmit. mrun.
  assert (Hid : member data "client_id" = Normal (get data "client_id"))
    by (unfold member; by rewrite Hnull).
  rewrite Hcreate, Hdata. mrun. rewrite Hid. mrun.
  rewrite Hst. mrun. rewrite Hlist, Hcs. cbv [as_array]. mrun.
  rewrite Promise_all_run. mrun.
  rewrite (proj1 (started_machine _ _ _)). cbn.
  repeat split; try done. apply length_entries.
Qed.

(** In that case the candidate list stored in the session is the result
    of the aggregation, run from the session that holds the client id and
    the submission, after the two requests of the submission. *)
Lemma handleClientSubmit_stores_aggregation w formData s
    clientResponse data solution_type spocsResponse cs :
  respond w 0 (ClientCreate formData) = Resolved clientResponse →
  member clientResponse "data" = Normal data →
  nullish data = false →
  member formData "solution_type" = Normal solution_type →
  respond w 1 (SpocGetAll (obj [("solution_type", solution_type)]))
  = Resolved spocsResponse →
  member spocsResponse "data" = Normal (VArr cs) →
  let s0 := setError VNull (setIsLoading true s) in
  let s1 := setClientData formData (setClientId (get data "client_id") s0) in
  let m :=
    mkMachine s1
      [(ClientCreate formData, s0);
       (SpocGetAll (obj [("solution_type", solution_type)]), s1)] 0 in
  (Promise_all (pick w) (spocWithAvailability w <$> cs) m).1
  = Normal (spocs (after (SubmitClient w formData) s)).
Proof.
  intros Hcreate Hdata Hnull Hst Hlist Hcs s0 s1 m. subst m s1 s0.
  unfold after, handler, handleClientSubmit. mrun.
  assert (Hid : member data "client_id" = Normal (get data "client_id"))
    by (unfold member; by rewrite Hnull).
  rewrite Hcreate, Hdata. mrun. rewrite Hid. mrun.
  rewrite Hst. mrun. rewrite Hlist, Hcs. cbv [as_array]. mrun.
  rewrite !Promise_all_run. mrun.
  by rewrite (proj1 (started_machine _ _ _)).
Qed.

(** C3. When the creation request or the listing request of a submission
    is rejected, [handleClientSubmit] leaves the step where it was (the
    form step when the submission came from the form), stores no candidate
    list, and sets the error to the message of the rejection: the detail
    of the server's response when there is a truthy one, the generic
    message otherwise. *)
Theorem submitClient_failure (w : Env) (formData : value) (s : Session)
    (n : nat) (r : request) (snap : Session) (err : value) :
  issued (run (handleClientSubmit w formData) s).2 !! n = Some (r, snap) →
  required r = true →
  respond w n r = Rejected err →
  let s' := after (SubmitClient w formData) s in
  step s' = step s
  ∧ spocs s' = spocs s
  ∧ error s'
    = detail_or (get (response_rejected err) "response")
        "Failed to process request."
  ∧ truthy (error s') = true.
Proof.
  intros Hn Hreq Hrej s'. subst s'. revert Hn.
  unfold after, handler, handleClientSubmit. mpaths.
  all: try match goal with
           | |- context [started ?w ?cs ?m] =>
               destruct (started_machine w cs m) as (Hlive & l & Hiss & Hall);
               rewrite Hlive, Hiss; cbn [live issued app]
           end.
  all: intros Hn; destruct n as [|[|n]]; simpl in Hn; simplify_eq;
    try congruence.
  all: try match goal with
           | H1 : respond ?w ?n ?r = Rejected ?a,
             H2 : respond ?w ?n ?r = Rejected ?b |- _ =>
               assert (a = b) by congruence; subst
           end.
  all: try (repeat split; try done; by apply detail_or_truthy).
  apply (Forall_lookup_1 _ _ _ _ Hall) in Hn as [Hr _]. simpl in Hr. congruence.
Qed.

(** ** Confirming a booking (App.jsx, lines 63-82) *)

Lemma handleBookingConfirm_completes w s meetingType m :
  (handleBookingConfirm w s meetingType m).1 = Normal tt.
Proof. destruct m. unfold handleBookingConfirm. mpaths; done. Qed.

(** C4. When the booking request of [handleBookingConfirm] is rejected, the
    step is the one the call was made from (the reviewing step, when it
    was made from there), the selected SPOC and slot are those of the last
    selection, and the error holds the message of the rejection, which is
    never empty. *)
Theorem confirmBooking_failure (w : Env) (s : Session) (meetingType : value)
    (bookingData err : value) :
  requests (run (handleBookingConfirm w s meetingType) s)
  = [BookingCreate bookingData] →
  respond w 0 (BookingCreate bookingData) = Rejected err →
  let s' := after (ConfirmBooking w meetingType) s in
  step s' = step s
  ∧ selectedSpoc s' = selectedSpoc s
  ∧ selectedSlot s' = selectedSlot s
  ∧ bookingResult s' = bookingResult s
  ∧ error s'
    = detail_or (get (response_rejected err) "response") "Booking failed."
  ∧ truthy (error s') = true.
Proof.
  intros Hreq Hrej s'. subst s'. revert Hreq.
  unfold after, handler, handleBookingConfirm. mpaths.
  all: simpl; intros Hreq; simplify_eq; try congruence.
  assert (err0 = err) as -> by congruence.
  repeat split; try done. by apply detail_or_truthy.
Qed.

(** What the two asynchronous handlers leave alone. *)
Lemma handleClientSubmit_frame w formData s :
  let s' := after (SubmitClient w formData) s in
  selectedSpoc s' = selectedSpoc s
  ∧ selectedSlot s' = selectedSlot s
  ∧ showModal s' = showModal s
  ∧ bookingResult s' = bookingResult s
  ∧ (step s' = StepSpocs ∨ step s' = step s ∧ spocs s' = spocs s).
Proof.
  unfold after, handler, handleClientSubmit. mpaths.
  all: rewrite ?(proj1 (started_machine _ _ _)); cbn; auto 10.
Qed.

Lemma handleBookingConfirm_frame w s meetingType :
  let s' := after (ConfirmBooking w meetingType) s in
  clientData s' = clientData s
  ∧ clientId s' = clientId s
  ∧ spocs s' = spocs s
  ∧ selectedSpoc s' = selectedSpoc s
  ∧ selectedSlot s' = selectedSlot s.
Proof.
  unfold after, handler, handleBookingConfirm. mpaths; cbn; auto 10.
Qed.

(** A confirmation that finds no selected SPOC, or no selected slot, throws
    at the property access, before any request: it issues none, keeps the
    step and the booking result, and reports the generic message. *)
Lemma handleBookingConfirm_unselected w s meetingType :
  nullish (selectedSpoc s) = true ∨ nullish (selectedSlot s) = true →
  let s' := after (ConfirmBooking w meetingType) s in
  requests (run (handleBookingConfirm w s meetingType) s) = []
  ∧ step s' = step s
  ∧ bookingResult s' = bookingResult s
  ∧ error s' = VStr "Booking failed.".
Proof.
  intros Hsel. unfold after, handler, handleBookingConfirm. mpaths.
  all: try done.
  all: destruct Hsel; congruence.
Qed.

(** The two outcomes of a confirmation. Either it fails: an error is
    reported, the step and the booking result stay. Or the booking request
    was issued and fulfilled: the step becomes ['success'], which happens
    nowhere else, and the booking result is the data of the response. *)
Lemma handleBookingConfirm_outcome w s meetingType :
  let s' := after (ConfirmBooking w meetingType) s in
  (truthy (error s') = true ∧ step s' = step s
   ∧ bookingResult s' = bookingResult s)
  ∨ ∃ bookingData response,
      requests (run (handleBookingConfirm w s meetingType) s)
      = [BookingCreate bookingData]
      ∧ respond w 0 (BookingCreate bookingData) = Resolved response
      ∧ step s' = StepSuccess
      ∧ bookingResult s' = get response "data"
      ∧ error s' = VNull.
Proof.
  unfold after, handler, handleBookingConfirm. mpaths.
  all: try (left; repeat split; try done; by apply detail_or_truthy).
  right. eauto 10.
Qed.


(** ** Selecting a slot (App.jsx, lines 56-61) *)

(** The search of the handler, on the session [s] it closes over. *)
Lemma handleSlotSelection_run s spocId slot :
  let found :=
    array_find (spocs s)
      (λ x, match member x "spoc_id" with
            | Normal id => Normal (strict_eq id spocId)
            | Throw e => Throw e
            end) in
  run (handleSlotSelection s spocId slot) s
  = match found with
    | Normal spoc =>
        (Normal tt,
         mkMachine
           (setShowModal true (setSelectedSlot slot (setSelectedSpoc spoc s)))
           [] 0)
    | Throw e => (Throw e, boot s)
    end.
Proof.
  unfold handleSlotSelection. mrun. by destruct (array_find _ _).
Qed.

Lemma array_find_completes xs pred :
  Forall (λ x, ∃ b, pred x = Normal b) xs →
  ∃ v, array_find xs pred = Normal v.
Proof.
  induction 1 as [|x xs [b Hb] _ IH]; simpl; [eauto|].
  rewrite Hb. destruct b; eauto.
Qed.


(** What a slot selection does to the session, by the outcome of its
    search. *)
Lemma handleSlotSelection_cases (s : Session) (spocId slot : value) :
  let s' := after (SelectSlot spocId slot) s in
  (step s' = step s ∧ clientData s' = clientData s ∧ clientId s' = clientId s
   ∧ spocs s' = spocs s ∧ bookingResult s' = bookingResult s
   ∧ isLoading s' = isLoading s ∧ error s' = error s)
  ∧ match (run (handleSlotSelection s spocId slot) s).1 with
    | Normal _ =>
        selectedSlot s' = slot ∧ showModal s' = true
        ∧ (selectedSpoc s' = VUndefined
           ∨ selectedSpoc s' ∈ spocs s
             ∧ get (selectedSpoc s') "spoc_id" = spocId)
    | Throw _ => s' = s
    end
  ∧ (Forall (λ x, nullish x = false) (spocs s) →
     (run (handleSlotSelection s spocId slot) s).1 = Normal tt).
Proof.
  intros s'. subst s'. unfold after, handler.
  rewrite handleSlotSelection_run.
  destruct (array_find _ _) as [spoc|e] eqn:Hfind; cbn.
  - split; [done|]. split; [|done]. split; [done|]. split; [done|].
    apply array_find_Normal in Hfind as [[-> _]|[Hin Hp]]; [by left|right].
    split; [done|].
    destruct (member spoc "spoc_id") as [id|] eqn:Hid; [|done].
    apply member_Normal in Hid as [_ ->].
    injection Hp as Hp. by apply strict_eq_eq.
  - split; [done|]. split; [done|]. intros Hall.
    destruct (array_find_completes (spocs s)
      (λ x, match member x "spoc_id" with
            | Normal id => Normal (strict_eq id spocId)
            | Throw e => Throw e
            end)) as [v Hv]; [|congruence].
    eapply Forall_impl; [exact Hall|]. intros x Hx. cbn beta.
    unfold member. rewrite Hx. eauto.
Qed.





Lemma bookingData_fields (a b c d : value) :
  let bookingData :=
    obj [("client_id", a); ("spoc_id", b); ("slot_id", c);
         ("meeting_type", d)] in
  get bookingData "client_id" = a ∧ get bookingData "spoc_id" = b
  ∧ get bookingData "slot_id" = c ∧ get bookingData "meeting_type" = d.
Proof. done. Qed.


Lemma exec_snoc ops o s : exec (ops ++ [o]) s = after o (exec ops s).
Proof. unfold exec. by rewrite foldl_app. Qed.



(** ** Sequences of events *)

(** [unselected_in_form] holds initially and is kept by every event. *)
Lemma after_unselected_in_form o s :
  unselected_in_form s → unselected_in_form (after o s).
Proof.
  intros Hs. destruct o as [w formData|spocId slot|w meetingType| | |].
  - destruct (handleClientSubmit_frame w formData s)
      as (Hspoc & _ & _ & _ & [Hstep|[Hstep Hspocs]]); intros Hform.
    + congruence.
    + rewrite Hspoc, Hspocs. apply Hs. congruence.
  - destruct (handleSlotSelection_cases s spocId slot)
      as ((Hstep & _ & _ & Hspocs & _) & Hrec & _).
    intros Hform. rewrite Hstep in Hform. destruct (Hs Hform) as [Hnil Hnull].
    destruct (run (handleSlotSelection s spocId slot) s).1.
    + split; [congruence|].
      destruct Hrec as (_ & _ & [->|[Hin _]]); [done|].
      rewrite Hnil in Hin. by apply elem_of_nil in Hin.
    + by rewrite Hrec.
  - destruct (handleBookingConfirm_frame w s meetingType)
      as (_ & _ & Hspocs & Hspoc & _).
    intros Hform. rewrite Hspocs, Hspoc. apply Hs.
    destruct (handleBookingConfirm_outcome w s meetingType)
      as [(_ & Hstep & _)|(_ & _ & _ & _ & Hstep & _)]; congruence.
  - done.
  - exact Hs.
  - exact Hs.
Qed.

Lemma exec_unselected_in_form ops :
  unselected_in_form (exec ops initial).
Proof.
  induction ops as [|o ops IH] using rev_ind; [done|].
  rewrite exec_snoc. by apply after_unselected_in_form.
Qed.

(** Until a selection is made, the selected SPOC is [null]. *)
Lemma exec_without_selection ops :
  Forall (λ o, is_select o = false) ops →
  selectedSpoc (exec ops initial) = VNull.
Proof.
  induction ops as [|o ops IH] using rev_ind; [done|].
  rewrite Forall_app, Forall_singleton. intros [Hops Ho].
  rewrite exec_snoc. specialize (IH Hops).
  destruct o as [w formData|spocId slot|w meetingType| | |].
  - destruct (handleClientSubmit_frame w formData (exec ops initial))
      as (Hspoc & _). congruence.
  - done.
  - destruct (handleBookingConfirm_frame w (exec ops initial) meetingType)
      as (_ & _ & _ & Hspoc & _). congruence.
  - done.
  - exact IH.
  - exact IH.
Qed.


(** C6. In a session where no slot selection has been made,
    [handleBookingConfirm] fails on its precondition: it throws when it
    reads the selected SPOC, before any request is sent, reports the
    error, and leaves the step and the booking result as they were. *)
Theorem confirmBooking_requires_selection (ops : list op) (w : Env)
    (meetingType : value) :
  Forall (λ o, is_select o = false) ops →
  let s := exec ops initial in
  let s' := after (ConfirmBooking w meetingType) s in
  requests (run (handleBookingConfirm w s meetingType) s) = []
  ∧ step s' = step s
  ∧ bookingResult s' = bookingResult s
  ∧ error s' = VStr "Booking failed.".
Proof.
  intros Hops s. apply handleBookingConfirm_unselected. left.
  subst s. by rewrite exec_without_selection.
Qed.

(** ** Resetting (App.jsx, lines 84-93) *)

(** C9. [handleReset] twice is [handleReset] once, and after it the step
    is the form step and the submission, the client id, the candidate
    list, the selection, the booking result and the error are cleared. *)
Theorem reset_idempotent (s : Session) :
  after Reset (after Reset s) = after Reset s
  ∧ step (after Reset s) = StepForm
  ∧ clientData (after Reset s) = VNull
  ∧ clientId (after Reset s) = VNull
  ∧ spocs (after Reset s) = []
  ∧ selectedSpoc (after Reset s) = VNull
  ∧ selectedSlot (after Reset s) = VNull
  ∧ bookingResult (after Reset s) = VNull
  ∧ error (after Reset s) = VNull.
Proof. done. Qed.

(** ** The error cell *)

(** C10. Both asynchronous handlers clear the error before they send
    anything: every request they issue leaves a session whose error is
    [null]. The session they end in does not depend on the error they
    started with, so the error shown after them is their own. *)
Theorem async_handlers_clear_error_first (w : Env) (s : Session)
    (previous arg : value) :
  (Forall (λ p, error p.2 = VNull)
     (issued (run (handleClientSubmit w arg) s).2)
   ∧ after (SubmitClient w arg) (setError previous s)
     = after (SubmitClient w arg) s)
  ∧ (Forall (λ p, error p.2 = VNull)
       (issued (run (handleBookingConfirm w s arg) s).2)
     ∧ after (ConfirmBooking w arg) (setError previous s)
       = after (ConfirmBooking w arg) s).
Proof.
  split; split.
  - unfold handleClientSubmit. mpaths.
    all: try match goal with
             | |- context [started ?w ?cs ?m] =>
                 destruct (started_machine w cs m) as (_ & l & -> & Hall);
                 cbn [live issued app] in *
             end.
    all: repeat (apply Forall_cons; split; [done|]).
    all: try apply Forall_nil_2.
    eapply Forall_impl; [exact Hall|]. by intros [r snap] [_ ->].
  - done.
  - unfold handleBookingConfirm. mpaths.
    all: repeat (apply Forall_cons; split; [done|]).
    all: apply Forall_nil_2.
  - done.
Qed.

(** ** The scenario, through the theorems *)

(** The aggregation of the scenario: the first candidate comes back with
    its two slots; the second one, whose fetch timed out, is still there,
    with its id and its name and without slots; in that order, although
    the second response arrived first. *)
Lemma aggregation_scenario :
  ∃ result : list value,
    (Promise_all (pick (scenario created booked))
       (spocWithAvailability (scenario created booked) <$> [spoc1; spoc2])
       (boot initial)).1 = Normal result
    ∧ length result = 2%nat
    ∧ result !! 0%nat = Some spoc1_availability
    ∧ ∃ entry,
        result !! 1%nat = Some entry
        ∧ get entry "available_slots" = VArr []
        ∧ get entry "spoc_id" = VNum 2
        ∧ get entry "name" = VStr "SPOC2".
Proof.
  destruct (aggregation_keeps_every_candidate (scenario created booked)
              [spoc1; spoc2] (boot initial)) as (result & Hrun & Hlen & Hall).
  exists result. rewrite Hrun. split; [done|]. split; [done|].
  pose proof (Hall 0%nat spoc1 eq_refl) as H1.
  pose proof (Hall 1%nat spoc2 eq_refl) as H2.
  assert (E1 : (fetchAvailability (scenario created booked) spoc1
                  (started (scenario created booked)
                     (take 0 [spoc1; spoc2]) (boot initial))).1
               = Normal spoc1_availability) by (vm_compute; reflexivity).
  assert (E2 : (fetchAvailability (scenario created booked) spoc2
                  (started (scenario created booked)
                     (take 1 [spoc1; spoc2]) (boot initial))).1
               = Throw (obj [("message", VStr "timeout of 10000ms exceeded")]))
    by (vm_compute; reflexivity).
  rewrite E1 in H1. rewrite E2 in H2.
  destruct H2 as (entry & H2 & Hslots & Hown).
  split; [done|]. exists entry. split; [done|]. split; [done|].
  split; rewrite Hown by done; vm_compute; reflexivity.
Defined.

Lemma submitClient_success_scenario :
  let s' := after (SubmitClient (scenario created booked) acme) initial in
  step s' = StepSpocs
  ∧ clientId s' = VNum 7
  ∧ clientData s' = acme
  ∧ length (spocs s') = 2%nat
  ∧ error s' = VNull
  ∧ isLoading s' = false.
Proof.
  apply (submitClient_success (scenario created booked) acme initial
           (obj [("data", obj [("client_id", VNum 7)])])
           (obj [("client_id", VNum 7)]) (VStr "Automation")
           (obj [("data", VArr [spoc1; spoc2])]) [spoc1; spoc2]);
    vm_compute; reflexivity.
Defined.

Lemma submitClient_failure_scenario :
  let w := scenario (rejection "Client already exists") booked in
  let s' := after (SubmitClient w acme) initial in
  step s' = StepForm
  ∧ spocs s' = []
  ∧ error s' = VStr "Client already exists"
  ∧ truthy (error s') = true.
Proof.
  apply (submitClient_failure
           (scenario (rejection "Client already exists") booked) acme initial
           0 (ClientCreate acme) (setError VNull (setIsLoading true initial))
           (obj [("message", VStr "Request failed");
                 ("response",
                  obj [("data",
                        obj [("detail", VStr "Client already exists")])])]));
    vm_compute; reflexivity.
Defined.

Lemma confirmBooking_failure_scenario :
  let w := scenario created (rejection "Slot already booked") in
  let s' := after (ConfirmBooking w (VStr "Technical Demo")) selected in
  step s' = StepSpocs
  ∧ selectedSpoc s' = spoc1_availability
  ∧ selectedSlot s' = slot1
  ∧ bookingResult s' = VNull
  ∧ error s' = VStr "Slot already booked"
  ∧ truthy (error s') = true.
Proof.
  apply (confirmBooking_failure
           (scenario created (rejection "Slot already booked")) selected
           (VStr "Technical Demo") demo_booking
           (obj [("message", VStr "Request failed");
                 ("response",
                  obj [("data",
                        obj [("detail", VStr "Slot already booked")])])]));
    vm_compute; reflexivity.
Defined.

Lemma confirmBooking_requires_selection_scenario :
  let w := scenario created booked in
  let s' := after (ConfirmBooking w (VStr "Technical Demo")) reviewing in
  requests (run (handleBookingConfirm w reviewing (VStr "Technical Demo"))
              reviewing) = []
  ∧ step s' = StepSpocs
  ∧ bookingResult s' = VNull
  ∧ error s' = VStr "Booking failed.".
Proof.
  apply (confirmBooking_requires_selection
           [SubmitClient (scenario created booked) acme]
           (scenario created booked) (VStr "Technical Demo")).
  repeat constructor.
Defined.




(** The session of the scenario when the candidates are shown, and when
    the booking is confirmed. *)
Example scenario_reviewing :
  step reviewing = StepSpocs
  ∧ spocs reviewing = [spoc1_availability; withoutSlots spoc2]
  ∧ get (withoutSlots spoc2) "name" = VStr "SPOC2".
Proof. vm_compute. done. Qed.

Example scenario_booked :
  let s' :=
    after (ConfirmBooking (scenario created booked) (VStr "Technical Demo"))
      selected in
  step s' = StepSuccess
  ∧ get (bookingResult s') "spoc_name" = get (selectedSpoc s') "name"
  ∧ showModal s' = false.
Proof. vm_compute. done. Qed.

(** * Further properties of the handlers *)

(** ** The loading flag *)

(** X1. Neither asynchronous handler ever throws, whatever the service
    answers and whatever its argument is: every exception of the [try] is
    caught. Every request a handler issues leaves while [isLoading] is
    set, and the handler ends with [isLoading] cleared. *)
Theorem async_handlers_bracket_loading (w : Env) (s : Session) (arg : value) :
  ((run (handleClientSubmit w arg) s).1 = Normal tt
   ∧ Forall (λ p, isLoading p.2 = true)
       (issued (run (handleClientSubmit w arg) s).2)
   ∧ isLoading (after (SubmitClient w arg) s) = false)
  ∧ ((run (handleBookingConfirm w s arg) s).1 = Normal tt
     ∧ Forall (λ p, isLoading p.2 = true)
         (issued (run (handleBookingConfirm w s arg) s).2)
     ∧ isLoading (after (ConfirmBooking w arg) s) = false).
Proof.
  split.
  - unfold after, handler, handleClientSubmit. mpaths.
    all: try match goal with
             | |- context [started ?w ?cs ?m] =>
                 destruct (started_machine w cs m) as (Hlive & l & -> & Hall);
                 rewrite ?Hlive; cbn [live issued app] in *
             end.
    all: split; [done|]; split; [|done].
    all: repeat (apply Forall_cons; split; [done|]).
    all: try apply Forall_nil_2.
    eapply Forall_impl; [exact Hall|]. by intros [r snap] [_ ->].
  - unfold after, handler, handleBookingConfirm. mpaths.
    all: split; [done|]; split; [|done].
    all: repeat (apply Forall_cons; split; [done|]).
    all: apply Forall_nil_2.
Qed.

(** ** Submissions *)

(** X2. Whatever goes wrong in a submission (a rejection, a response
    without data, a listing that is not an array, a submission that is
    [null]), it ends in one of two ways: the candidates are shown and no
    error is reported; or an error is reported, never an empty one, and
    the step and the candidate list are those from before. In both cases
    the selection, the modal flag and the booking result are untouched. *)
Theorem submitClient_outcome (w : Env) (formData : value) (s : Session) :
  let s' := after (SubmitClient w formData) s in
  ((step s' = StepSpocs ∧ error s' = VNull)
   ∨ (step s' = step s ∧ spocs s' = spocs s ∧ truthy (error s') = true))
  ∧ selectedSpoc s' = selectedSpoc s
  ∧ selectedSlot s' = selectedSlot s
  ∧ showModal s' = showModal s
  ∧ bookingResult s' = bookingResult s.
Proof.
  intros s'. subst s'.
  destruct (handleClientSubmit_frame w formData s) as (H1 & H2 & H3 & H4 & _).
  split; [apply handleClientSubmit_outcome|done].
Qed.

(** X3. Once the creation request is fulfilled with data, the client id
    and the submission are stored, also when the submission then fails
    (the step stays and an error is shown); and every submission starts
    with a creation request, from a session that already holds a client
    id as from any other: submitting again creates a client again. *)
Theorem submitClient_keeps_created_client (w : Env) (formData : value)
    (s : Session) (clientResponse data : value) :
  respond w 0 (ClientCreate formData) = Resolved clientResponse →
  member clientResponse "data" = Normal data →
  nullish data = false →
  let s' := after (SubmitClient w formData) s in
  clientId s' = get data "client_id"
  ∧ clientData s' = formData
  ∧ ∀ (w' : Env) (s0 : Session),
      requests (run (handleClientSubmit w' formData) s0) !! 0%nat
      = Some (ClientCreate formData).
Proof.
  intros Hcreate Hdata Hnull s'. subst s'. split; [|split].
  - unfold after, handler, handleClientSubmit. mrun.
    assert (Hid : member data "client_id" = Normal (get data "client_id"))
      by (unfold member; by rewrite Hnull).
    rewrite Hcreate, Hdata. mrun. rewrite Hid. mpaths.
    all: by rewrite ?(proj1 (started_machine _ _ _)).
  - unfold after, handler, handleClientSubmit. mrun.
    assert (Hid : member data "client_id" = Normal (get data "client_id"))
      by (unfold member; by rewrite Hnull).
    rewrite Hcreate, Hdata. mrun. rewrite Hid. mpaths.
    all: by rewrite ?(proj1 (started_machine _ _ _)).
  - intros w' s0. unfold handleClientSubmit. mpaths.
    all: try match goal with
             | |- context [started ?w ?cs ?m] =>
                 destruct (started_machine w cs m) as (_ & l & -> & _)
             end.
    all: done.
Qed.

Lemma toISOString_in_range t :
  (Z.abs t ≤ 8640000000000000)%Z → toISOString t = Normal t.
Proof. intros H. unfold toISOString. by apply Z.leb_le in H as ->. Qed.

(** The requests of the aggregation: in the order of the candidates, each
    for a window that ends fourteen days after a clock reading taken
    after the one it starts at; and, while the dates stay in the range of
    [Date], one per candidate that is not [null] or [undefined], for the
    [spoc_id] of its candidate. *)
Lemma fetchAvailability_requests w spoc m :
  ∃ l, (issued (fetchAvailability w spoc m).2).*1 = (issued m).*1 ++ l
       ∧ ((∀ n, (Z.abs (clock w n) ≤ 8640000000000000 - 1209600000)%Z) →
          spocId_of <$> l
          = (λ c, Some (get c "spoc_id"))
              <$> filter (λ c, nullish c = false) [spoc])
       ∧ Forall (λ r, ∃ id t, r = SpocGetAvailability id (clock w t)
                                 (clock w (S t) + 1209600000)) l.
Proof.
  unfold fetchAvailability. mrun.
  destruct (member spoc "spoc_id") as [spoc_id|e] eqn:Hid.
  - apply member_Normal in Hid as [Hn ->].
    destruct (toISOString (clock w (ticks m))) as [startDate|e] eqn:Hs.
    + destruct (toISOString (clock w (S (ticks m)) + _)) as [endDate|e]
        eqn:He.
      * exists [SpocGetAvailability (get spoc "spoc_id") startDate endDate].
        rewrite filter_cons_True, filter_nil by done.
        unfold toISOString in Hs, He.
        destruct (Z.leb _ _) in Hs; [|done]. injection Hs as <-.
        destruct (Z.leb _ _) in He; [|done]. injection He as <-.
        destruct (respond w _ _); cbn [snd issued]; rewrite fmap_app.
        all: split; [done|]; split; [done|].
        all: apply Forall_singleton; by exists (get spoc "spoc_id"), (ticks m).
      * exists []. cbn [snd issued]. rewrite app_nil_r.
        split; [done|]. split; [|constructor]. intros Hrange.
        rewrite toISOString_in_range in He; [done|].
        specialize (Hrange (S (ticks m))). lia.
    + exists []. cbn [snd issued]. rewrite app_nil_r.
      split; [done|]. split; [|constructor]. intros Hrange.
      rewrite toISOString_in_range in Hs; [done|].
      specialize (Hrange (ticks m)). lia.
  - apply member_Throw in Hid as [Hn ->]. exists [].
    rewrite filter_cons_False, filter_nil by (by rewrite Hn).
    cbn [snd]. rewrite app_nil_r. by split; [|split; [|constructor]].
Qed.

Lemma started_requests w cs m :
  ∃ l, (issued (started w cs m)).*1 = (issued m).*1 ++ l
       ∧ ((∀ n, (Z.abs (clock w n) ≤ 8640000000000000 - 1209600000)%Z) →
          spocId_of <$> l
          = (λ c, Some (get c "spoc_id"))
              <$> filter (λ c, nullish c = false) cs)
       ∧ Forall (λ r, ∃ id t, r = SpocGetAvailability id (clock w t)
                                 (clock w (S t) + 1209600000)) l.
Proof.
  revert m. induction cs as [|spoc cs IH]; intros m.
  - exists []. cbn. rewrite app_nil_r. by split; [|split; [|constructor]].
  - destruct (fetchAvailability_requests w spoc m) as (l1 & Hi & Hid & Hall).
    destruct (IH (fetchAvailability w spoc m).2) as (l2 & Hi' & Hid' & Hall').
    exists (l1 ++ l2). cbn [started foldl].
    fold (started w cs (fetchAvailability w spoc m).2).
    split; [by rewrite Hi', Hi, app_assoc|]. split.
    + intros Hrange. rewrite fmap_app, (Hid Hrange), (Hid' Hrange).
      rewrite <-fmap_app. f_equal.
      change (spoc :: cs) with ([spoc] ++ cs). by rewrite filter_app.
    + by apply Forall_app.
Qed.


(** X5. When the clock does not run backwards, the window of every
    availability request of a submission is at least fourteen days long:
    its end is fourteen days after a reading taken after the reading
    that is its start. *)
Theorem availability_window_fourteen_days (w : Env) (formData : value)
    (s : Session) (spocId : value) (startDate endDate : Z) :
  (∀ n, (clock w n ≤ clock w (S n))%Z) →
  SpocGetAvailability spocId startDate endDate
    ∈ requests (run (handleClientSubmit w formData) s) →
  (startDate + 14 * 24 * 60 * 60 * 1000 ≤ endDate)%Z.
Proof.
  intros Hclock. unfold handleClientSubmit. mpaths.
  all: try match goal with
           | |- context [started ?w ?cs ?m] =>
               destruct (started_requests w cs m) as (l & -> & _ & Hall)
           end.
  all: cbn; intros Hin.
  all: repeat (apply elem_of_cons in Hin as [Hin|Hin]; [done|]).
  all: try (by apply elem_of_nil in Hin).
  eapply Forall_forall in Hall as (id & t & Heq); [|exact Hin].
  injection Heq as -> -> ->. specialize (Hclock t). lia.
Qed.

(** ** The modal and the screens *)

Lemma truthy_not_nullish v : truthy v = true → nullish v = false.
Proof. by destruct v. Qed.

(** X6. Whenever the confirmation modal is on the page, a confirmation
    sends exactly one booking request, for the client of the session, the
    SPOC and the slot the modal shows, and the given meeting type. Either
    the booking is made, the step becomes ['success'] and the modal
    leaves the page; or an error is reported, the step stays and the same
    modal stays on the page, ready for another try. *)
Theorem confirm_from_modal (w : Env) (s : Session) (meetingType : value) :
  render_modal s ≠ None →
  let s' := after (ConfirmBooking w meetingType) s in
  ∃ bookingData,
    requests (run (handleBookingConfirm w s meetingType) s)
    = [BookingCreate bookingData]
    ∧ get bookingData "client_id" = clientId s
    ∧ get bookingData "spoc_id" = get (selectedSpoc s) "spoc_id"
    ∧ get bookingData "slot_id" = get (selectedSlot s) "slot_id"
    ∧ get bookingData "meeting_type" = meetingType
    ∧ ((step s' = StepSuccess ∧ error s' = VNull ∧ render_modal s' = None)
       ∨ (step s' = step s ∧ truthy (error s') = true
          ∧ render_modal s' = render_modal s)).
Proof.
  intros Hmodal s'. subst s'. unfold render_modal in *.
  destruct (showModal s) eqn:Hshow; [|done].
  destruct (truthy (selectedSpoc s)) eqn:Hspoc; [|done].
  destruct (truthy (selectedSlot s)) eqn:Hslot; [|done].
  apply truthy_not_nullish in Hspoc as Hspoc'.
  apply truthy_not_nullish in Hslot as Hslot'.
  eexists. unfold after, handler, handleBookingConfirm. mpaths; try congruence.
  all: split; [reflexivity|].
  all: repeat (split; [apply bookingData_fields|]).
  - left. by cbn.
  - right. cbn. by rewrite Hshow, Hspoc, Hslot.
  - right. cbn. rewrite Hshow, Hspoc, Hslot.
    split; [done|]. split; [|done]. by apply detail_or_truthy.
Qed.

(** X7. The screen after a fulfilled booking request is the success
    section, built from the data of the response, only when that data is
    truthy: a response without data puts the session in the ['success']
    step with no section on the page. *)
Theorem booked_screen (w : Env) (s : Session)
    (meetingType bookingData response : value) :
  requests (run (handleBookingConfirm w s meetingType) s)
  = [BookingCreate bookingData] →
  respond w 0 (BookingCreate bookingData) = Resolved response →
  nullish response = false →
  let s' := after (ConfirmBooking w meetingType) s in
  step s' = StepSuccess
  ∧ render_main s'
    = (if truthy (get response "data")
       then ScreenSuccess (get response "data")
       else ScreenNone).
Proof.
  intros Hreq Hres Hnull s'. subst s'. revert Hreq.
  unfold after, handler, handleBookingConfirm. mpaths.
  all: cbn; intros Hreq; simplify_eq; try congruence.
  assert (response0 = response) as -> by congruence. done.
Qed.



(** X8. Along every sequence of events from the initial session, the
    confirmation modal is never on the page together with the form:
    while the step is ['form'] there is no selected SPOC to show. *)
Theorem modal_never_over_form (ops : list op) :
  step (exec ops initial) = StepForm → render_modal (exec ops initial) = None.
Proof.
  intros Hform.
  destruct (exec_unselected_in_form ops Hform) as [_ Hnull].
  unfold render_modal.
  destruct (selectedSpoc (exec ops initial)); try done.
  all: by rewrite andb_false_r.
Qed.


(** ** The scenario, through these properties *)

Lemma submitClient_keeps_created_client_scenario :
  let w := scenario created (rejection "Slot already booked") in
  let s' := after (SubmitClient w acme) initial in
  clientId s' = VNum 7
  ∧ clientData s' = acme
  ∧ ∀ (w' : Env) (s0 : Session),
      requests (run (handleClientSubmit w' acme) s0) !! 0%nat
      = Some (ClientCreate acme).
Proof.
  apply (submitClient_keeps_created_client
           (scenario created (rejection "Slot already booked")) acme initial
           (obj [("data", obj [("client_id", VNum 7)])])
           (obj [("client_id", VNum 7)])); vm_compute; reflexivity.
Defined.


Lemma availability_window_scenario :
  (1893456000000 + 14 * 24 * 60 * 60 * 1000 ≤ 1893456000001 + 1209600000)%Z.
Proof.
  apply (availability_window_fourteen_days (scenario created booked) acme
           initial (VNum 1) 1893456000000 (1893456000001 + 1209600000)).
  - intros n. cbn. lia.
  - apply list_elem_of_lookup. exists 2%nat. vm_compute. reflexivity.
Defined.

Lemma confirm_from_modal_scenario :
  let w := scenario created booked in
  let s' := after (ConfirmBooking w (VStr "Technical Demo")) selected in
  render_modal selected
  = Some (VStr "SPOC1", VStr "2030-01-07T09:00:00Z")
  ∧ ∃ bookingData,
      requests (run (handleBookingConfirm w selected (VStr "Technical Demo"))
                  selected) = [BookingCreate bookingData]
      ∧ get bookingData "client_id" = clientId selected
      ∧ get bookingData "spoc_id" = get (selectedSpoc selected) "spoc_id"
      ∧ get bookingData "slot_id" = get (selectedSlot selected) "slot_id"
      ∧ get bookingData "meeting_type" = VStr "Technical Demo"
      ∧ ((step s' = StepSuccess ∧ error s' = VNull ∧ render_modal s' = None)
         ∨ (step s' = step selected ∧ truthy (error s') = true
            ∧ render_modal s' = render_modal selected)).
Proof.
  assert (Hmodal : render_modal selected
                   = Some (VStr "SPOC1", VStr "2030-01-07T09:00:00Z"))
    by (vm_compute; reflexivity).
  split; [exact Hmodal|].
  apply (confirm_from_modal (scenario created booked) selected
           (VStr "Technical Demo")).
  rewrite Hmodal. discriminate.
Defined.

Lemma booked_screen_scenario :
  let w := scenario created (Resolved (obj [("status", VNum 204)])) in
  let s' := after (ConfirmBooking w (VStr "Technical Demo")) selected in
  step s' = StepSuccess ∧ render_main s' = ScreenNone.
Proof.
  apply (booked_screen
           (scenario created (Resolved (obj [("status", VNum 204)])))
           selected (VStr "Technical Demo") demo_booking
           (obj [("status", VNum 204)])); vm_compute; reflexivity.
Defined.

(** * The form *)

(** ** Matching by derivatives is membership in the language *)

Lemma nullable_lang r : Regex.nullable r = true ↔ Regex.lang r [].
Proof.
  split.
  - induction r; simpl; intros H; try done.
    + constructor.
    + apply andb_true_iff in H as [H1 H2].
      change (@nil ascii) with (@nil ascii ++ []). constructor; auto.
    + apply orb_true_iff in H as [H|H].
      * apply Regex.lang_Alt_l; auto.
      * apply Regex.lang_Alt_r; auto.
    + constructor.
  - intros H. remember [] as s eqn:Hs.
    induction H; simpl; try done; subst.
    + apply app_eq_nil in Hs as [-> ->]. rewrite IHlang1, IHlang2; done.
    + rewrite IHlang; done.
    + rewrite IHlang, orb_true_r; done.
Qed.

Lemma lang_Cat_inv r1 r2 s :
  Regex.lang (Regex.Cat r1 r2) s
  ↔ ∃ s1 s2, s = s1 ++ s2 ∧ Regex.lang r1 s1 ∧ Regex.lang r2 s2.
Proof.
  split.
  - intros H. inversion H; subst. eauto.
  - intros (s1 & s2 & -> & H1 & H2). by constructor.
Qed.

Lemma lang_Alt_inv r1 r2 s :
  Regex.lang (Regex.Alt r1 r2) s ↔ Regex.lang r1 s ∨ Regex.lang r2 s.
Proof.
  split.
  - intros H. inversion H; subst; auto.
  - intros [H|H]; [by apply Regex.lang_Alt_l|by apply Regex.lang_Alt_r].
Qed.

Lemma deriv_lang c r s :
  Regex.lang (Regex.deriv c r) s ↔ Regex.lang r (c :: s).
Proof.
  split.
  - revert s. induction r as [| |p|r1 IH1 r2 IH2|r1 IH1 r2 IH2|r1 IH1];
      simpl; intros s H.
    + inversion H.
    + inversion H.
    + destruct (p c) eqn:Hp; inversion H; subst. by constructor.
    + destruct (Regex.nullable r1) eqn:Hn.
      * apply lang_Alt_inv in H as [H|H].
        -- apply lang_Cat_inv in H as (s1 & s2 & -> & H1 & H2).
           change (c :: s1 ++ s2) with ((c :: s1) ++ s2).
           constructor; auto.
        -- change (c :: s) with ([] ++ c :: s).
           constructor; [by apply nullable_lang|auto].
      * apply lang_Cat_inv in H as (s1 & s2 & -> & H1 & H2).
        change (c :: s1 ++ s2) with ((c :: s1) ++ s2). constructor; auto.
    + apply lang_Alt_inv in H as [H|H].
      * apply Regex.lang_Alt_l; auto.
      * apply Regex.lang_Alt_r; auto.
    + apply lang_Cat_inv in H as (s1 & s2 & -> & H1 & H2).
      change (c :: s1 ++ s2) with ((c :: s1) ++ s2). constructor; auto.
  - intros H. remember (c :: s) as cs eqn:Hcs. revert s Hcs.
    induction H as [|p d Hp|r1 r2 s1 s2 H1 IH1 H2 IH2|r1 r2 s0 H0 IH0
                   |r1 r2 s0 H0 IH0|r0|r0 s1 s2 H1 IH1 H2 IH2];
      intros s Hcs; simpl; try done.
    + injection Hcs as -> <-. rewrite Hp. constructor.
    + destruct s1 as [|d s1].
      * simpl in Hcs. subst s2.
        apply nullable_lang in H1. rewrite H1.
        apply Regex.lang_Alt_r. by apply IH2.
      * injection Hcs as -> <-.
        destruct (Regex.nullable r1);
          [apply Regex.lang_Alt_l|]; constructor; auto.
    + apply Regex.lang_Alt_l. auto.
    + apply Regex.lang_Alt_r. auto.
    + destruct s1 as [|d s1].
      * simpl in Hcs. by apply IH2.
      * injection Hcs as -> <-. constructor; auto.
Qed.

Lemma matches_lang r s : Regex.matches r s = true ↔ Regex.lang r s.
Proof.
  revert r. induction s as [|c s IH]; intros r; simpl.
  - apply nullable_lang.
  - rewrite IH. apply deriv_lang.
Qed.

Lemma lang_Class_inv p s :
  Regex.lang (Regex.Class p) s ↔ ∃ c, s = [c] ∧ p c = true.
Proof.
  split.
  - intros H. inversion H; subst. eauto.
  - intros (c & -> & Hp). by constructor.
Qed.

Lemma lang_Star_Class p s :
  Regex.lang (Regex.Star (Regex.Class p)) s ↔ Forall (λ c, p c = true) s.
Proof.
  split.
  - intros H. remember (Regex.Star (Regex.Class p)) as r eqn:Hr.
    induction H; try done; injection Hr as ->.
    apply Forall_app. split; [|auto].
    apply lang_Class_inv in H as (c & -> & Hp). by constructor.
  - induction 1 as [|c s Hc _ IH]; [constructor|].
    change (c :: s) with ([c] ++ s). constructor; [by constructor|done].
Qed.

Lemma lang_Plus_Class p s :
  Regex.lang (Regex.Plus (Regex.Class p)) s
  ↔ s ≠ [] ∧ Forall (λ c, p c = true) s.
Proof.
  unfold Regex.Plus. rewrite lang_Cat_inv. split.
  - intros (s1 & s2 & -> & (c & -> & Hp)%lang_Class_inv & H2%lang_Star_Class).
    split; [done|]. by constructor.
  - intros [Hne Hall]. destruct s as [|c s]; [done|].
    apply Forall_cons in Hall as [Hc Hall].
    exists [c], s. split; [done|]. split.
    + by constructor.
    + by apply lang_Star_Class.
Qed.

(** ** The address pattern (BookingForm.jsx, line 54) *)

Lemma notSpaceAt_true c :
  BookingForm.notSpaceAt c = true ↔ Str.is_space c = false ∧ c ≠ "@"%char.
Proof.
  unfold BookingForm.notSpaceAt.
  rewrite andb_true_iff, !negb_true_iff, Ascii.eqb_neq. done.
Qed.

(** The parts of a string the pattern accepts. *)
Lemma email_pattern_parts (email : string) :
  Regex.test BookingForm.emailPattern email = true →
  ∃ a b c : list ascii,
    String.list_ascii_of_string email
    = a ++ "@"%char :: b ++ "."%char :: c
    ∧ a ≠ [] ∧ b ≠ [] ∧ c ≠ []
    ∧ Forall (λ x, BookingForm.notSpaceAt x = true) (a ++ b ++ c).
Proof.
  unfold Regex.test, BookingForm.emailPattern. rewrite matches_lang.
  rewrite lang_Cat_inv.
  intros (a & r1 & -> & [Ha Hall]%lang_Plus_Class & H).
  apply lang_Cat_inv in H
    as (at_ & r2 & -> & (x & -> & <-%Ascii.eqb_eq)%lang_Class_inv & H).
  apply lang_Cat_inv in H as (b & r3 & -> & [Hb Hbll]%lang_Plus_Class & H).
  apply lang_Cat_inv in H
    as (dot & c & -> & (y & -> & <-%Ascii.eqb_eq)%lang_Class_inv
        & [Hc Hcll]%lang_Plus_Class).
  exists a, b, c. repeat split; try done.
  by rewrite !Forall_app.
Qed.

(** X10. The pattern accepts exactly the strings of the shape
    [a@b.c], where [a], [b] and [c] are not empty and hold neither
    white space nor [@] (they may hold dots). *)
Theorem email_pattern_shape (email : string) :
  Regex.test BookingForm.emailPattern email = true
  ↔ ∃ a b c : list ascii,
      String.list_ascii_of_string email
      = a ++ "@"%char :: b ++ "."%char :: c
      ∧ a ≠ [] ∧ b ≠ [] ∧ c ≠ []
      ∧ Forall (λ x, BookingForm.notSpaceAt x = true) (a ++ b ++ c).
Proof.
  split; [apply email_pattern_parts|].
  unfold Regex.test, BookingForm.emailPattern. rewrite matches_lang.
  intros (a & b & c & -> & Ha & Hb & Hc & Hall).
  rewrite !Forall_app in Hall. destruct Hall as (Hall & Hbll & Hcll).
  apply lang_Cat_inv.
  exists a, ("@"%char :: b ++ "."%char :: c). split; [done|].
  split; [by apply lang_Plus_Class|].
  apply lang_Cat_inv. exists ["@"%char], (b ++ "."%char :: c).
  split; [done|]. split; [apply lang_Class_inv; by exists "@"%char|].
  apply lang_Cat_inv. exists b, ("."%char :: c).
  split; [done|]. split; [by apply lang_Plus_Class|].
  apply lang_Cat_inv. exists ["."%char], c.
  split; [done|]. split; [apply lang_Class_inv; by exists "."%char|].
  by apply lang_Plus_Class.
Qed.

(** X11. An address the pattern accepts holds no white space, exactly one
    [@], and at least five code units. *)
Theorem email_pattern_necessary (email : string) :
  Regex.test BookingForm.emailPattern email = true →
  let units := String.list_ascii_of_string email in
  Forall (λ x, Str.is_space x = false) units
  ∧ length (filter (λ x, x = "@"%char) units) = 1%nat
  ∧ (5 ≤ length units)%nat.
Proof.
  intros (a & b & c & Heq & Ha & Hb & Hc & Hall)%email_pattern_parts units.
  subst units. rewrite Heq. clear Heq.
  rewrite !Forall_app in Hall. destruct Hall as (Hall & Hbll & Hcll).
  assert (Hnone : ∀ l, Forall (λ x, BookingForm.notSpaceAt x = true) l →
            Forall (λ x, Str.is_space x = false) l
            ∧ filter (λ x, x = "@"%char) l = []).
  { induction 1 as [|x l [Hx Hat]%notSpaceAt_true _ [IH1 IH2]]; [done|].
    split; [by constructor|]. by rewrite filter_cons_False. }
  destruct (Hnone a Hall) as [Has Haf].
  destruct (Hnone b Hbll) as [Hbs Hbf].
  destruct (Hnone c Hcll) as [Hcs Hcf].
  split; [|split].
  - rewrite Forall_app, Forall_cons, Forall_app, Forall_cons. done.
  - rewrite filter_app, filter_cons_True, filter_app, filter_cons_False
      by done.
    by rewrite Haf, Hbf, Hcf.
  - rewrite length_app. simpl. rewrite length_app. simpl.
    destruct a, b, c; simpl; try done; lia.
Qed.

(** ** Validation (BookingForm.jsx, lines 48-71) *)

Lemma trimStart_all_space l :
  Forall (λ c, Str.is_space c = true) (Str.trimStart l)
  ↔ Forall (λ c, Str.is_space c = true) l.
Proof.
  induction l as [|c l IH]; simpl; [done|].
  destruct (Str.is_space c) eqn:Hc; [|done].
  rewrite IH, Forall_cons. naive_solver.
Qed.

Lemma trimStart_nil l :
  Str.trimStart l = [] ↔ Forall (λ c, Str.is_space c = true) l.
Proof.
  induction l as [|c l IH]; simpl; [done|].
  destruct (Str.is_space c) eqn:Hc.
  - rewrite IH, Forall_cons. naive_solver.
  - split; [done|]. intros [H _]%Forall_cons. congruence.
Qed.

(** [s.trim()] is empty exactly when [s] is made of white space only. *)
Lemma trim_empty s :
  truthy (VStr (Str.trim s)) = false
  ↔ Forall (λ c, Str.is_space c = true) (String.list_ascii_of_string s).
Proof.
  unfold Str.trim.
  set (l := String.list_ascii_of_string s).
  rewrite <-(trimStart_all_space l), <-(Forall_reverse _ (Str.trimStart l)).
  rewrite <-trimStart_nil.
  destruct (Str.trimStart (reverse (Str.trimStart l))) as [|c r] eqn:Ht.
  - done.
  - split; [|done]. rewrite reverse_cons.
    destruct (reverse r); simpl; done.
Qed.

Lemma truthy_field fd k :
  truthy (BookingForm.field fd k) = true ↔ ∃ v, fd !! k = Some v ∧ v ≠ "".
Proof.
  unfold BookingForm.field. destruct (fd !! k) as [v|]; simpl.
  - rewrite negb_true_iff. destruct (String.eqb_spec v ""); naive_solver.
  - naive_solver.
Qed.

Lemma size_eqb_0 (m : gmap string value) :
  Nat.eqb (size m) 0 = true ↔ m = ∅.
Proof. by rewrite Nat.eqb_eq, map_size_empty_iff. Qed.

(** An accepted address has something else than white space in it. *)
Lemma email_pattern_not_blank email :
  Regex.test BookingForm.emailPattern email = true →
  truthy (VStr (Str.trim email)) = true.
Proof.
  intros (a & b & c & Heq & Ha & _ & _ & Hall)%email_pattern_parts.
  apply not_false_iff_true. rewrite trim_empty, Heq.
  destruct a as [|x a]; [done|].
  apply Forall_cons in Hall as [[Hx _]%notSpaceAt_true _].
  intros [Hs _]%Forall_cons. congruence.
Qed.

(** What [validate] answers on a form that holds a company name and an
    address: the values of the inputs untouched, [true] exactly when it
    sets no message, and exactly when the five required inputs pass. *)
Lemma validate_spec (f : BookingForm.state) (company email : string) :
  BookingForm.formData f !! "company_name" = Some company →
  BookingForm.formData f !! "contact_email" = Some email →
  ∃ (newErrors : gmap string value) (valid : bool),
    BookingForm.validate f
    = Normal (BookingForm.mkState (BookingForm.formData f) newErrors, valid)
    ∧ (valid = true ↔ newErrors = ∅)
    ∧ (valid = true ↔
       ¬ Forall (λ c, Str.is_space c = true)
           (String.list_ascii_of_string company)
       ∧ Regex.test BookingForm.emailPattern email = true
       ∧ (∃ v, BookingForm.formData f !! "solution_type" = Some v ∧ v ≠ "")
       ∧ (∃ v, BookingForm.formData f !! "budget_range" = Some v ∧ v ≠ "")
       ∧ (∃ v, BookingForm.formData f !! "decision_timeline" = Some v
               ∧ v ≠ "")).
Proof.
  intros Hcompany Hemail.
  unfold BookingForm.validate, BookingForm.trimmed.
  rewrite Hcompany, Hemail.
  cbn [mbind completion_bind mret completion_ret default].
  change (id email) with email.
  do 2 eexists. split; [reflexivity|]. rewrite size_eqb_0.
  split; [done|].
  rewrite <-trim_empty, <-!truthy_field, not_false_iff_true.
  pose proof (email_pattern_not_blank email) as Hblank.
  destruct (truthy (VStr (Str.trim company)));
    destruct (Regex.test BookingForm.emailPattern email);
    destruct (truthy (VStr (Str.trim email)));
    destruct (truthy (BookingForm.field _ "solution_type"));
    destruct (truthy (BookingForm.field _ "budget_range"));
    destruct (truthy (BookingForm.field _ "decision_timeline"));
    cbn [negb].
  all: try (specialize (Hblank eq_refl); discriminate).
  all: try (split; [intros H; by apply insert_non_empty in H|naive_solver]).
  naive_solver.
Qed.

(** X12. On a form that holds a company name and an address, [validate]
    accepts (it answers [true] and leaves no message) exactly when the
    company name is not made of white space only, the address matches the
    pattern, and a solution type, a budget range and a timeline are
    chosen; otherwise it answers [false] and leaves at least one message.
    It never changes the values of the inputs, and it matches the address
    as typed, not trimmed. *)
Theorem validate_accepts_iff (f : BookingForm.state) (company email : string) :
  BookingForm.formData f !! "company_name" = Some company →
  BookingForm.formData f !! "contact_email" = Some email →
  let passes :=
    ¬ Forall (λ c, Str.is_space c = true)
        (String.list_ascii_of_string company)
    ∧ Regex.test BookingForm.emailPattern email = true
    ∧ (∃ v, BookingForm.formData f !! "solution_type" = Some v ∧ v ≠ "")
    ∧ (∃ v, BookingForm.formData f !! "budget_range" = Some v ∧ v ≠ "")
    ∧ (∃ v, BookingForm.formData f !! "decision_timeline" = Some v ∧ v ≠ "")
  in
  (BookingForm.validate f
   = Normal (BookingForm.mkState (BookingForm.formData f) ∅, true)
   ↔ passes)
  ∧ (¬ passes →
     ∃ newErrors, newErrors ≠ ∅
       ∧ BookingForm.validate f
         = Normal (BookingForm.mkState (BookingForm.formData f) newErrors,
                   false)).
Proof.
  intros Hc He passes.
  destruct (validate_spec f company email Hc He)
    as (newErrors & valid & Hv & Hempty & Hiff).
  fold passes in Hiff. rewrite Hv. split.
  - split.
    + intros [= -> ->]. by apply Hiff.
    + intros Hp. apply Hiff in Hp. subst valid.
      by rewrite (proj1 Hempty eq_refl).
  - intros Hnot. exists newErrors. destruct valid.
    + destruct Hnot. by apply Hiff.
    + split; [|done]. intros Hnil. apply Hempty in Hnil. done.
Qed.

Lemma validate_Normal f next valid :
  BookingForm.validate f = Normal (next, valid) →
  BookingForm.formData next = BookingForm.formData f
  ∧ ∃ company email,
      BookingForm.formData f !! "company_name" = Some company
      ∧ BookingForm.formData f !! "contact_email" = Some email.
Proof.
  unfold BookingForm.validate, BookingForm.trimmed.
  destruct (BookingForm.formData f !! "company_name") as [company|]; [|done].
  destruct (BookingForm.formData f !! "contact_email") as [email|]; [|done].
  cbn [mbind completion_bind mret completion_ret].
  intros [= <- _]. eauto.
Qed.

Lemma handleChange_keeps_inputs name value f k :
  is_Some (BookingForm.formData f !! k) →
  is_Some (BookingForm.formData (BookingForm.handleChange name value f) !! k).
Proof.
  intros Hk. cbn. destruct (decide (name = k)) as [->|Hne].
  - rewrite lookup_insert_eq. eauto.
  - by rewrite lookup_insert_ne.
Qed.

Lemma reacts_keeps_inputs es k :
  is_Some (BookingForm.formData BookingForm.initial !! k) →
  is_Some (BookingForm.formData
             (BookingForm.reacts es BookingForm.initial) !! k).
Proof.
  intros Hk. induction es as [|e es IH] using rev_ind; [done|].
  unfold BookingForm.reacts. rewrite foldl_app. cbn [foldl].
  fold (BookingForm.reacts es BookingForm.initial).
  destruct e as [name value|]; cbn [BookingForm.react].
  - by apply handleChange_keeps_inputs.
  - unfold BookingForm.handleSubmit.
    destruct (BookingForm.validate _) as [[next valid]|e] eqn:Hv; [|done].
    cbn. apply validate_Normal in Hv as [-> _]. done.
Qed.

(** X13. Whatever was typed and however often the form was submitted,
    submitting does not throw: the two inputs [validate] trims are always
    there. It leaves the values of the inputs as they are, and hands the
    form data on exactly when it leaves no message under any input. *)
Theorem form_submit_never_throws (es : list BookingForm.event) :
  let f := BookingForm.reacts es BookingForm.initial in
  ∃ next payload,
    BookingForm.handleSubmit f = Normal (next, payload)
    ∧ BookingForm.formData next = BookingForm.formData f
    ∧ (payload = Some (VObj (VStr <$> BookingForm.formData f))
       ∧ BookingForm.errors next = ∅
       ∨ payload = None ∧ BookingForm.errors next ≠ ∅).
Proof.
  intros f.
  destruct (reacts_keeps_inputs es "company_name") as [company Hc]; [done|].
  destruct (reacts_keeps_inputs es "contact_email") as [email He]; [done|].
  fold f in Hc, He.
  destruct (validate_spec f company email Hc He)
    as (newErrors & valid & Hv & Hempty & _).
  unfold BookingForm.handleSubmit. rewrite Hv.
  cbn [mbind completion_bind mret completion_ret fst snd].
  do 2 eexists. split; [reflexivity|]. split; [done|].
  destruct valid; cbn.
  - left. split; [done|]. by apply Hempty.
  - right. split; [done|]. intros H. apply Hempty in H. done.
Qed.

Lemma listing_params w formData s params :
  SpocGetAll params ∈ requests (run (handleClientSubmit w formData) s) →
  params = obj [("solution_type", get formData "solution_type")].
Proof.
  unfold handleClientSubmit. mpaths.
  all: try match goal with
           | |- context [started ?w ?cs ?m] =>
               destruct (started_requests w cs m) as (l & -> & _ & Hall)
           end.
  all: cbn; intros Hin.
  all: repeat (apply elem_of_cons in Hin as [Hin|Hin]; [by simplify_eq|]).
  all: try (by apply elem_of_nil in Hin).
  eapply Forall_forall in Hall as (id & t & Heq); [|exact Hin]. done.
Qed.

(** X14. What the form hands to [onSubmit] is what [App] sends: when
    [handleSubmit] passes form data on, it is the values of the inputs as
    typed, the submission starts with the creation request for exactly
    that data, and if it gets to list the candidates it asks for the
    solution type chosen in the form, which is not empty. *)
Theorem form_submission_reaches_service (f next : BookingForm.state)
    (formData : value) (w : Env) (s : Session) :
  BookingForm.handleSubmit f = Normal (next, Some formData) →
  formData = VObj (VStr <$> BookingForm.formData f)
  ∧ requests (run (handleClientSubmit w formData) s) !! 0%nat
    = Some (ClientCreate formData)
  ∧ ∃ solution_type,
      BookingForm.formData f !! "solution_type" = Some solution_type
      ∧ solution_type ≠ ""
      ∧ ∀ params,
          SpocGetAll params
            ∈ requests (run (handleClientSubmit w formData) s) →
          params = obj [("solution_type", VStr solution_type)].
Proof.
  unfold BookingForm.handleSubmit.
  destruct (BookingForm.validate f) as [[next' valid]|e] eqn:Hv; [|done].
  cbn [mbind completion_bind mret completion_ret fst snd].
  destruct valid; [|done]. intros [= -> <-].
  apply validate_Normal in Hv as Hin. destruct Hin as (_ & company & email & Hc & He).
  destruct (validate_spec f company email Hc He)
    as (newErrors & valid & Hv' & _ & Hiff).
  rewrite Hv in Hv'. injection Hv' as _ <-.
  destruct (proj1 Hiff eq_refl) as (_ & _ & (st & Hst & Hne) & _).
  split; [done|]. split.
  - unfold handleClientSubmit. mpaths.
    all: try match goal with
             | |- context [started ?w ?cs ?m] =>
                 destruct (started_machine w cs m) as (_ & l & -> & _)
             end.
    all: done.
  - exists st. split; [done|]. split; [done|].
    intros params ->%listing_params. do 3 f_equal.
    unfold get. by rewrite lookup_fmap, Hst.
Qed.

(** * A click on a slot (SpocCard.jsx, lines 15-18) *)

Lemma strict_eq_refl v : primitive v = true → strict_eq v v = true.
Proof.
  destruct v; simpl; try done; intros _.
  - by destruct b.
  - apply Z.eqb_refl.
  - apply String.eqb_refl.
Qed.

Lemma strict_eq_ne a b : a ≠ b → strict_eq a b = false.
Proof.
  intros Hne. destruct (strict_eq a b) eqn:H; [|done].
  by apply strict_eq_eq in H.
Qed.

(** The search finds the entry at [i] when the entries before it are
    there and have another id. *)
Lemma array_find_at xs i spoc :
  xs !! i = Some spoc →
  Forall (λ c, nullish c = false) (take (S i) xs) →
  primitive (get spoc "spoc_id") = true →
  (∀ j c, (j < i)%nat → xs !! j = Some c →
          get c "spoc_id" ≠ get spoc "spoc_id") →
  array_find xs
    (λ x, match member x "spoc_id" with
          | Normal id => Normal (strict_eq id (get spoc "spoc_id"))
          | Throw e => Throw e
          end) = Normal spoc.
Proof.
  revert i. induction xs as [|x xs IH]; intros i Hi Hall Hprim Huniq; [done|].
  cbn [take] in Hall. apply Forall_cons in Hall as [Hx Hall].
  cbn [array_find]. unfold member at 1. rewrite Hx.
  destruct i as [|i].
  - injection Hi as ->. by rewrite strict_eq_refl.
  - rewrite strict_eq_ne
      by (apply (Huniq 0%nat x (Nat.lt_0_succ i)); reflexivity).
    apply (IH i); try done.
    intros j c Hj Hc. apply (Huniq (S j) c); [by apply Nat.succ_lt_mono in Hj|done].
Qed.

(** X15. A click on a slot of the card of a candidate selects that
    candidate and that slot and opens the modal, without any request,
    provided the candidate's id is a number or a string that no earlier
    entry of the list shares, and the entries up to it are objects; the
    card highlights the id of the slot. (With an id shared by an earlier
    entry, the search would stop at that one.) *)
Theorem slot_click_selects_own_card (s : Session) (i : nat)
    (spoc slot : value) :
  spocs s !! i = Some spoc →
  Forall (λ c, nullish c = false) (take (S i) (spocs s)) →
  primitive (get spoc "spoc_id") = true →
  (∀ j c, (j < i)%nat → spocs s !! j = Some c →
          get c "spoc_id" ≠ get spoc "spoc_id") →
  nullish slot = false →
  let r := SpocCard.handleSlotClick s spoc slot (boot s) in
  r.1 = Normal (get slot "slot_id")
  ∧ selectedSpoc (live r.2) = spoc
  ∧ selectedSlot (live r.2) = slot
  ∧ showModal (live r.2) = true
  ∧ issued r.2 = [].
Proof.
  intros Hi Hall Hprim Huniq Hslot r. subst r.
  assert (Hspoc : nullish spoc = false).
  { apply (Forall_lookup_1 _ (take (S i) (spocs s)) i spoc Hall).
    rewrite lookup_take_lt; [exact Hi|lia]. }
  assert (Hm1 : member slot "slot_id" = Normal (get slot "slot_id"))
    by (unfold member; by rewrite Hslot).
  assert (Hm2 : member spoc "spoc_id" = Normal (get spoc "spoc_id"))
    by (unfold member; by rewrite Hspoc).
  unfold SpocCard.handleSlotClick, handleSlotSelection. mrun.
  rewrite Hm1, Hm2. mrun.
  rewrite (array_find_at _ i spoc Hi Hall Hprim Huniq). done.
Qed.

(** * The interceptors (api.js) *)

(** X16. The response interceptor rejects with what the handlers see
    thrown. When the error carries a response whose status is the number
    401, the token is taken out of the local storage and the page is sent
    to [/login], and from then on the request interceptor adds no
    [Authorization] header to any request; in every other case (another
    status, a status that is the string ["401"], no response, an error
    that is [null]) the browser is left as it is. *)
Theorem unauthorized_logs_out (b : Api.browser) (error : value) :
  let r := Api.response_interceptor_rejected b error in
  r.2 = response_rejected error
  ∧ if negb (nullish error)
       && strict_eq (opt_member (get error "response") "status") (VNum 401)
    then Api.localStorage r.1 = delete "access_token" (Api.localStorage b)
         ∧ Api.location_href r.1 = Some "/login"
         ∧ ∀ c, Api.request_interceptor r.1 c = c
    else r.1 = b.
Proof.
  unfold Api.response_interceptor_rejected, response_rejected, member.
  destruct (nullish error); cbn [negb andb]; [done|].
  destruct (strict_eq _ _); cbn [fst snd]; [|done].
  split; [done|]. split; [done|]. split; [done|].
  intros c. unfold Api.request_interceptor. cbn.
  by rewrite lookup_delete_eq.
Qed.

(** * The scenario, through the form and the card *)

Lemma email_pattern_necessary_scenario :
  let units := String.list_ascii_of_string "a@b.com" in
  Forall (λ x, Str.is_space x = false) units
  ∧ length (filter (λ x, x = "@"%char) units) = 1%nat
  ∧ (5 ≤ length units)%nat.
Proof. apply (email_pattern_necessary "a@b.com"). vm_compute. reflexivity. Defined.

Lemma validate_accepts_scenario :
  BookingForm.validate acme_form
  = Normal (BookingForm.mkState (BookingForm.formData acme_form) ∅, true)
  ∧ ¬ Forall (λ c, Str.is_space c = true)
        (String.list_ascii_of_string "Acme")
  ∧ Regex.test BookingForm.emailPattern "a@b.com" = true.
Proof.
  assert (Hv : BookingForm.validate acme_form
               = Normal (BookingForm.mkState
                           (BookingForm.formData acme_form) ∅, true))
    by (vm_compute; reflexivity).
  split; [exact Hv|].
  assert (Hc : BookingForm.formData acme_form !! "company_name" = Some "Acme")
    by (vm_compute; reflexivity).
  assert (He : BookingForm.formData acme_form !! "contact_email"
               = Some "a@b.com") by (vm_compute; reflexivity).
  destruct (proj1 (proj1 (validate_accepts_iff acme_form "Acme" "a@b.com"
                            Hc He)) Hv) as (H1 & H2 & _).
  by split.
Defined.

Lemma form_submission_scenario :
  let formData := VObj (VStr <$> BookingForm.formData acme_form) in
  let w := scenario created booked in
  formData = VObj (VStr <$> BookingForm.formData acme_form)
  ∧ requests (run (handleClientSubmit w formData) initial) !! 0%nat
    = Some (ClientCreate formData)
  ∧ ∃ solution_type,
      BookingForm.formData acme_form !! "solution_type" = Some solution_type
      ∧ solution_type ≠ ""
      ∧ ∀ params,
          SpocGetAll params
            ∈ requests (run (handleClientSubmit w formData) initial) →
          params = obj [("solution_type", VStr solution_type)].
Proof.
  apply (form_submission_reaches_service acme_form
           (BookingForm.mkState (BookingForm.formData acme_form) ∅)
           (VObj (VStr <$> BookingForm.formData acme_form))
           (scenario created booked) initial).
  vm_compute. reflexivity.
Defined.

Lemma slot_click_scenario :
  let r := SpocCard.handleSlotClick reviewing spoc1_availability slot1
             (boot reviewing) in
  r.1 = Normal (get slot1 "slot_id")
  ∧ selectedSpoc (live r.2) = spoc1_availability
  ∧ selectedSlot (live r.2) = slot1
  ∧ showModal (live r.2) = true
  ∧ issued r.2 = [].
Proof.
  apply (slot_click_selects_own_card reviewing 0 spoc1_availability slot1).
  - vm_compute. reflexivity.
  - vm_compute. repeat constructor.
  - reflexivity.
  - intros j c Hj. lia.
  - reflexivity.
Defined.

Lemma modal_never_over_form_scenario :
  let ops := [SubmitClient (scenario created booked) acme;
              SelectSlot (VNum 1) slot1; Reset] in
  step (exec ops initial) = StepForm
  ∧ showModal (exec ops initial) = true
  ∧ render_modal (exec ops initial) = None.
Proof.
  assert (Hstep : step (exec [SubmitClient (scenario created booked) acme;
                              SelectSlot (VNum 1) slot1; Reset] initial)
                  = StepForm) by (vm_compute; reflexivity).
  split; [exact Hstep|]. split; [vm_compute; reflexivity|].
  exact (modal_never_over_form
           [SubmitClient (scenario created booked) acme;
            SelectSlot (VNum 1) slot1; Reset] Hstep).
Defined.
